(** * kindr: Z-Y'-X'' Euler angles (include/kindr/rotations/EulerAnglesZyx.hpp)

    A shallow embedding of the class template [EulerAnglesZyx<PrimType_>] and
    of its conversion traits.

    Scalars.  The development works on the real numbers: [+], [-], [<] and
    [<=] are the exact operations, [M_PI] is [PI] and the literal [1e-3] is
    the rational 1/1000.  This is the arithmetic of the header without
    rounding.  Where rounding decides a statement, [Module Double] gives
    getUnique once more on binary64 numbers, with the operations of IEEE 754
    and the double constants [M_PI] and [1e-3]; its results are computed,
    not idealised.  A value that is not a number (the result of [asin]
    outside [-1, 1]) is an absent value, [None].

    Eigen.  The class stores its angles in an [Eigen::Matrix<PrimType_,3,1>]
    (typedef [Base]).  The parts of Eigen the header relies on are modelled in
    [Module Eigen]: coefficient access, the named accessors x(), y(), z() of a
    vector, 3x3 matrices and their transpose. *)

From Stdlib Require Import Reals Lra ZArith Bool String.
From Stdlib Require Import Lia.
From Stdlib Require Import Floats.PrimFloat.
From ExtLib Require Import Structures.Monad Structures.MonadState.
From ExtLib Require Import Data.Monads.StateMonad.
Import MonadNotation.

Local Open Scope R_scope.

(** ** Scalar comparisons as booleans *)

Definition Rltb (a b : R) : bool := if Rlt_dec a b then true else false.
Definition Rleb (a b : R) : bool := if Rle_dec a b then true else false.

Infix "<?" := Rltb (at level 70, no associativity) : R_scope.
Infix "<=?" := Rleb (at level 70, no associativity) : R_scope.

(** <cmath>: the constant M_PI. *)
Definition M_PI : R := PI.

(** ** Eigen: fixed-size vectors and matrices *)

Module Eigen.

(** [Eigen::Matrix<Scalar,3,1>], coefficients 0, 1, 2. *)
Record Vector3 : Type := mkVector3 { coeff0 : R; coeff1 : R; coeff2 : R }.

(** The named accessors of a fixed-size Eigen vector (DenseCoeffsBase):
    x() is coefficient 0, y() is coefficient 1 and z() is coefficient 2,
    whatever the vector stores.  They are not the accessors z(), y(), x() of
    the class [EulerAnglesZyx], which read coefficients 0, 1, 2 in that
    order. *)
Definition x (v : Vector3) : R := coeff0 v.
Definition y (v : Vector3) : R := coeff1 v.
Definition z (v : Vector3) : R := coeff2 v.

(** Assignment through the writable accessors, [v.x() = a] and so on. *)
Definition set_x (v : Vector3) (a : R) : Vector3 := mkVector3 a (coeff1 v) (coeff2 v).
Definition set_y (v : Vector3) (a : R) : Vector3 := mkVector3 (coeff0 v) a (coeff2 v).
Definition set_z (v : Vector3) (a : R) : Vector3 := mkVector3 (coeff0 v) (coeff1 v) a.

(** [Base::Zero()] and [setZero()]. *)
Definition Zero : Vector3 := mkVector3 0 0 0.

(** [Eigen::Matrix<Scalar,3,3>]; [mIJ] is the coefficient [(I,J)], row [I]
    and column [J], counted from 0. *)
Record Matrix3 : Type := mkMatrix3 {
  m00 : R; m01 : R; m02 : R;
  m10 : R; m11 : R; m12 : R;
  m20 : R; m21 : R; m22 : R }.

Definition transpose (m : Matrix3) : Matrix3 :=
  mkMatrix3 (m00 m) (m10 m) (m20 m)
            (m01 m) (m11 m) (m21 m)
            (m02 m) (m12 m) (m22 m).

Definition Identity : Matrix3 := mkMatrix3 1 0 0  0 1 0  0 0 1.

Definition mul (a b : Matrix3) : Matrix3 :=
  mkMatrix3
    (m00 a * m00 b + m01 a * m10 b + m02 a * m20 b)
    (m00 a * m01 b + m01 a * m11 b + m02 a * m21 b)
    (m00 a * m02 b + m01 a * m12 b + m02 a * m22 b)
    (m10 a * m00 b + m11 a * m10 b + m12 a * m20 b)
    (m10 a * m01 b + m11 a * m11 b + m12 a * m21 b)
    (m10 a * m02 b + m11 a * m12 b + m12 a * m22 b)
    (m20 a * m00 b + m21 a * m10 b + m22 a * m20 b)
    (m20 a * m01 b + m21 a * m11 b + m22 a * m21 b)
    (m20 a * m02 b + m21 a * m12 b + m22 a * m22 b).

(** [Eigen::Quaternion<Scalar>], coefficients w, x, y, z. *)
Record Quaternion : Type := mkQuaternion { qw : R; qx : R; qy : R; qz : R }.

(** The product of two quaternions ([operator*]), [squaredNorm()] and
    [Quaternion::Identity()]. *)
Definition product (a b : Quaternion) : Quaternion :=
  mkQuaternion
    (qw a * qw b - qx a * qx b - qy a * qy b - qz a * qz b)
    (qw a * qx b + qx a * qw b + qy a * qz b - qz a * qy b)
    (qw a * qy b - qx a * qz b + qy a * qw b + qz a * qx b)
    (qw a * qz b + qx a * qy b - qy a * qx b + qz a * qw b).

Definition squaredNorm (a : Quaternion) : R :=
  qw a * qw a + qx a * qx a + qy a * qy a + qz a * qz a.

Definition QIdentity : Quaternion := mkQuaternion 1 0 0 0.

End Eigen.

(** ** kindr::common *)

Module common.

(** Modelled from the spec: floatingPointModulo of kindr/common/common.hpp,
    which this header includes but which is not part of the sources at
    hand.  The spec describes it as a positive floating-point modulus
    [mod(a, n)] that yields a non-negative remainder, a value in [0, n):
    [a] minus the largest multiple of [n] that is not above [a]. *)
Definition floatingPointModulo (a n : R) : R :=
  a - n * IZR (Int_part (a / n)).

End common.

(** ** The class EulerAnglesZyx *)

(** The only data member is [zyx_], the vector [yaw; pitch; roll]. *)
Record EulerAnglesZyx : Type := mkEulerAnglesZyx { zyx_ : Eigen.Vector3 }.

Module Zyx.

(** [EulerAnglesZyx()] *)
Definition identity : EulerAnglesZyx := mkEulerAnglesZyx Eigen.Zero.

(** [EulerAnglesZyx(Scalar yaw, Scalar pitch, Scalar roll)] *)
Definition make (yaw pitch roll : R) : EulerAnglesZyx :=
  mkEulerAnglesZyx (Eigen.mkVector3 yaw pitch roll).

(** [toImplementation()] and [vector()] *)
Definition toImplementation (e : EulerAnglesZyx) : Eigen.Vector3 := zyx_ e.
Definition vector (e : EulerAnglesZyx) : Eigen.Vector3 := toImplementation e.

(** Accessors of the class: yaw() and z() read [zyx_(0)], pitch() and y()
    read [zyx_(1)], roll() and x() read [zyx_(2)]. *)
Definition yaw (e : EulerAnglesZyx) : R := Eigen.coeff0 (zyx_ e).
Definition pitch (e : EulerAnglesZyx) : R := Eigen.coeff1 (zyx_ e).
Definition roll (e : EulerAnglesZyx) : R := Eigen.coeff2 (zyx_ e).
Definition z (e : EulerAnglesZyx) : R := Eigen.coeff0 (zyx_ e).
Definition y (e : EulerAnglesZyx) : R := Eigen.coeff1 (zyx_ e).
Definition x (e : EulerAnglesZyx) : R := Eigen.coeff2 (zyx_ e).

(** [const double tol = 1e-3;] *)
Definition tol : R := 1 / 1000.

(** The first statement of getUnique: the local [Base zyx] built from the
    three wrapped angles, in the order z(), y(), x() of the class.  The sum
    and the difference are exact here; [Double.prewrap] is the same
    statement with the rounding of doubles. *)
Definition prewrap (this : EulerAnglesZyx) : Eigen.Vector3 :=
  Eigen.mkVector3
    (common.floatingPointModulo (z this + M_PI) (2 * M_PI) - M_PI)
    (common.floatingPointModulo (y this + M_PI) (2 * M_PI) - M_PI)
    (common.floatingPointModulo (x this + M_PI) (2 * M_PI) - M_PI).

(** The if / else-if chain of getUnique on the local [zyx].  The local is
    declared [Base zyx], an Eigen vector, so [zyx.z()], [zyx.y()] and
    [zyx.x()] are Eigen's accessors: coefficient 2, 1 and 0.  The arithmetic
    is exact here; [Double.bands] is the same chain on doubles. *)
Definition bands (zyx : Eigen.Vector3) : Eigen.Vector3 :=
  if Eigen.y zyx <? - M_PI / 2 - tol then
    let zyx := if Eigen.z zyx <? 0
               then Eigen.set_z zyx (Eigen.z zyx + M_PI)
               else Eigen.set_z zyx (Eigen.z zyx - M_PI) in
    let zyx := Eigen.set_y zyx (- (Eigen.y zyx + M_PI)) in
    if Eigen.x zyx <? 0
    then Eigen.set_x zyx (Eigen.x zyx + M_PI)
    else Eigen.set_x zyx (Eigen.x zyx - M_PI)
  else if (- M_PI / 2 - tol <=? Eigen.y zyx) && (Eigen.y zyx <=? - M_PI / 2 + tol) then
    let zyx := Eigen.set_z zyx (Eigen.z zyx + Eigen.x zyx) in
    Eigen.set_x zyx 0
  else if (- M_PI / 2 + tol <? Eigen.y zyx) && (Eigen.y zyx <? M_PI / 2 - tol) then
    zyx
  else if (M_PI / 2 - tol <=? Eigen.y zyx) && (Eigen.y zyx <=? M_PI / 2 + tol) then
    let zyx := Eigen.set_z zyx (Eigen.z zyx - Eigen.x zyx) in
    Eigen.set_x zyx 0
  else
    let zyx := if Eigen.z zyx <? 0
               then Eigen.set_z zyx (Eigen.z zyx + M_PI)
               else Eigen.set_z zyx (Eigen.z zyx - M_PI) in
    let zyx := Eigen.set_y zyx (- (Eigen.y zyx - M_PI)) in
    if Eigen.x zyx <? 0
    then Eigen.set_x zyx (Eigen.x zyx + M_PI)
    else Eigen.set_x zyx (Eigen.x zyx - M_PI).

(** [EulerAnglesZyx getUnique() const] *)
Definition getUnique (this : EulerAnglesZyx) : EulerAnglesZyx :=
  mkEulerAnglesZyx (bands (prewrap this)).

End Zyx.

(** ** <cmath> *)

Module cmath.

(** [std::asin].  On [-1, 1] this is the arcsine.  Outside that interval
    std::asin has no real result: it returns NaN, here [None]. *)
Definition asin (a : R) : option R :=
  if (-1 <=? a) && (a <=? 1) then Some (Ratan.asin a) else None.

(** [std::atan2 (b, a)]: the angle of the point [(a, b)], in (-PI, PI]. *)
Definition atan2 (b a : R) : R :=
  if 0 <? a then atan (b / a)
  else if a <? 0 then
    (if 0 <=? b then atan (b / a) + PI else atan (b / a) - PI)
  else if 0 <? b then PI / 2
  else if b <? 0 then - (PI / 2)
  else 0.

End cmath.

(** ** The other rotation representations *)

(** [RotationQuaternion<PrimType_>] wraps an [Eigen::Quaternion]. *)
Record RotationQuaternion : Type :=
  mkRotationQuaternion { quaternion_ : Eigen.Quaternion }.

(** [RotationMatrix<PrimType_>] wraps an [Eigen::Matrix<PrimType_,3,3>]. *)
Record RotationMatrix : Type :=
  mkRotationMatrix { matrix_ : Eigen.Matrix3 }.

Module Quat.

Definition toImplementation (q : RotationQuaternion) : Eigen.Quaternion :=
  quaternion_ q.

(** Modelled from the spec: RotationQuaternion::inverted of
    kindr/rotations/RotationQuaternion.hpp, which is not part of the sources
    at hand.  The spec: invert the quaternion, which is its conjugate since
    it has unit length. *)
Definition inverted (q : RotationQuaternion) : RotationQuaternion :=
  let i := quaternion_ q in
  mkRotationQuaternion
    (Eigen.mkQuaternion (Eigen.qw i) (- Eigen.qx i) (- Eigen.qy i) (- Eigen.qz i)).

End Quat.

Module Mat.

Definition toImplementation (R : RotationMatrix) : Eigen.Matrix3 := matrix_ R.

(** A 3x3 matrix with orthonormal columns; every rotation matrix is one. *)
Definition orthonormal (m : Eigen.Matrix3) : Prop :=
  Eigen.mul (Eigen.transpose m) m = Eigen.Identity.

End Mat.

(** ** Conversion traits and the members that go through them *)

Section Conversions.

(** Eigen's [Quaternion::toRotationMatrix()] and
    [MatrixBase::eulerAngles(a0, a1, a2)]. *)
Variable toRotationMatrix : Eigen.Quaternion -> Eigen.Matrix3.
Variable eulerAngles : Eigen.Matrix3 -> nat -> nat -> nat -> Eigen.Vector3.

(** [ConversionTraits<RotationQuaternion, EulerAnglesZyx>::convert], behind
    the constructor of [RotationQuaternion<PrimType_>] from [*this]; it lives
    in RotationQuaternion.hpp. *)
Variable quaternion_of_zyx : EulerAnglesZyx -> RotationQuaternion.

(** [ConversionTraits<EulerAnglesZyx, RotationQuaternion>::convert];
    the cast to the destination scalar is the identity on reals. *)
Definition convert_RotationQuaternion (q : RotationQuaternion) : EulerAnglesZyx :=
  mkEulerAnglesZyx
    (eulerAngles (toRotationMatrix (Quat.toImplementation q)) 2 1 0).

(** [ConversionTraits<EulerAnglesZyx, RotationMatrix>::convert].  The pitch
    is [-asin(r13)] as it comes: nothing brings [r13] into [-1, 1] first.
    When [asin] has no value the pitch is NaN and the result is no triple of
    reals, [None]. *)
Definition convert_RotationMatrix (R : RotationMatrix) : option EulerAnglesZyx :=
  let R_BI := Eigen.transpose (Mat.toImplementation R) in
  let r23 := Eigen.m12 R_BI in
  let r33 := Eigen.m22 R_BI in
  let r13 := Eigen.m02 R_BI in
  let r12 := Eigen.m01 R_BI in
  let r11 := Eigen.m00 R_BI in
  match cmath.asin r13 with
  | Some a =>
      Some (mkEulerAnglesZyx
              (Eigen.mkVector3 (cmath.atan2 r12 r11) (- a) (cmath.atan2 r23 r33)))
  | None => None
  end.

(** [ConversionTraits<EulerAnglesZyx, EulerAnglesZyx>::convert] *)
Definition convert_EulerAnglesZyx (zyx : EulerAnglesZyx) : EulerAnglesZyx :=
  mkEulerAnglesZyx (Zyx.toImplementation zyx).

(** [EulerAnglesZyx inverted() const]:
    the quaternion built from [*this] is inverted and an [EulerAnglesZyx] is
    constructed from the result; the constructor from another rotation
    calls the conversion trait and keeps its implementation vector. *)
Definition inverted (this : EulerAnglesZyx) : EulerAnglesZyx :=
  mkEulerAnglesZyx
    (Zyx.toImplementation
       (convert_RotationQuaternion (Quat.inverted (quaternion_of_zyx this)))).

(** *** Member functions as computations on the receiver

    A member function is a computation in the state monad whose state is the
    object it is called on: it yields the returned value and the state of
    the receiver after the call.  A member that returns [*this] yields the
    value held by the receiver on return. *)

Local Abbreviation Member := (state EulerAnglesZyx).

Definition call {A : Type} (m : Member A) (this : EulerAnglesZyx)
  : A * EulerAnglesZyx := runState m this.

Definition returned {A : Type} (m : Member A) (this : EulerAnglesZyx) : A :=
  fst (call m this).

Definition receiver {A : Type} (m : Member A) (this : EulerAnglesZyx)
  : EulerAnglesZyx := snd (call m this).

Local Open Scope monad_scope.

(** [this->toImplementation() = v], the assignment behind [*this = other] *)
Definition assign (other : EulerAnglesZyx) : Member unit :=
  put (mkEulerAnglesZyx (Zyx.toImplementation other)).

Definition m_getUnique : Member EulerAnglesZyx :=
  this <- get ;;
  ret (Zyx.getUnique this).

(** [*this = getUnique(); return *this;] *)
Definition m_setUnique : Member EulerAnglesZyx :=
  u <- m_getUnique ;;
  assign u ;;
  get.

Definition m_inverted : Member EulerAnglesZyx :=
  this <- get ;;
  ret (inverted this).

(** [*this = this->inverted(); return *this;] *)
Definition m_invert : Member EulerAnglesZyx :=
  i <- m_inverted ;;
  assign i ;;
  get.

Definition m_setIdentity : Member EulerAnglesZyx :=
  put (mkEulerAnglesZyx Eigen.Zero) ;;
  get.

(** *** Printing

    [out << zyx.toImplementation().transpose()]: the stream receives the
    1x3 row made of the coefficients 0, 1, 2 of [zyx_]; how Eigen lays a row
    out as text is Eigen's [operator<<]. *)
Variable print_row : R -> R -> R -> string.

Definition operator_shl (out : string) (zyx : EulerAnglesZyx) : string :=
  let v := Zyx.toImplementation zyx in
  (out ++ print_row (Eigen.coeff0 v) (Eigen.coeff1 v) (Eigen.coeff2 v))%string.

End Conversions.

(** ** getUnique on binary64 numbers

    The instance [PrimType_ = double] of getUnique, statement by statement as
    in [Module Zyx], on IEEE 754 binary64 numbers. *)

Module Double.

(** [M_PI] and [1e-3] as the doubles the compiler reads. *)
Definition M_PI : float := 0x1.921fb54442d18p+1%float.
Definition tol : float := 0x1.0624dd2f1a9fcp-10%float.
Definition two : float := 0x1p1%float.
Definition zero : float := 0x0p0%float.

(** [std::floor] on doubles: below 2^52 in magnitude, round to the nearest
    integer by adding and removing 2^52 and step down when that went up;
    from 2^52 on every double is an integer. *)
Definition floor (a : float) : float :=
  let two52 := 0x1p52%float in
  if PrimFloat.ltb (PrimFloat.abs a) two52 then
    let r := if PrimFloat.ltb a zero
             then PrimFloat.add (PrimFloat.sub a two52) two52
             else PrimFloat.sub (PrimFloat.add a two52) two52 in
    if PrimFloat.ltb a r then PrimFloat.sub r 0x1p0%float else r
  else a.

(** Modelled from the spec: floatingPointModulo of kindr/common/common.hpp
    (not part of the sources at hand) on doubles, the non-negative
    remainder [a - n * floor (a / n)]. *)
Definition floatingPointModulo (a n : float) : float :=
  PrimFloat.sub a (PrimFloat.mul n (floor (PrimFloat.div a n))).

(** [Eigen::Matrix<double,3,1>] with Eigen's accessors: x() is coefficient
    0, y() coefficient 1, z() coefficient 2. *)
Record Vector3 : Type := mkVector3 { coeff0 : float; coeff1 : float; coeff2 : float }.

Definition x (v : Vector3) : float := coeff0 v.
Definition y (v : Vector3) : float := coeff1 v.
Definition z (v : Vector3) : float := coeff2 v.
Definition set_x (v : Vector3) (a : float) : Vector3 := mkVector3 a (coeff1 v) (coeff2 v).
Definition set_y (v : Vector3) (a : float) : Vector3 := mkVector3 (coeff0 v) a (coeff2 v).
Definition set_z (v : Vector3) (a : float) : Vector3 := mkVector3 (coeff0 v) (coeff1 v) a.

(** [EulerAnglesZyx<double>]: the vector [yaw; pitch; roll]. *)
Record EulerAnglesZyxD : Type := mkEulerAnglesZyxD { zyx_ : Vector3 }.

Definition make (yaw pitch roll : float) : EulerAnglesZyxD :=
  mkEulerAnglesZyxD (mkVector3 yaw pitch roll).

Definition wrap (a : float) : float :=
  PrimFloat.sub
    (floatingPointModulo (PrimFloat.add a M_PI) (PrimFloat.mul two M_PI)) M_PI.

(** The local [Base zyx] of getUnique, built from z(), y(), x() of the
    class, that is from coefficients 0, 1, 2. *)
Definition prewrap (this : EulerAnglesZyxD) : Vector3 :=
  mkVector3 (wrap (coeff0 (zyx_ this)))
            (wrap (coeff1 (zyx_ this)))
            (wrap (coeff2 (zyx_ this))).

Definition bands (zyx : Vector3) : Vector3 :=
  let lower := PrimFloat.div (PrimFloat.opp M_PI) two in
  let upper := PrimFloat.div M_PI two in
  if PrimFloat.ltb (y zyx) (PrimFloat.sub lower tol) then
    let zyx := if PrimFloat.ltb (z zyx) zero
               then set_z zyx (PrimFloat.add (z zyx) M_PI)
               else set_z zyx (PrimFloat.sub (z zyx) M_PI) in
    let zyx := set_y zyx (PrimFloat.opp (PrimFloat.add (y zyx) M_PI)) in
    if PrimFloat.ltb (x zyx) zero
    then set_x zyx (PrimFloat.add (x zyx) M_PI)
    else set_x zyx (PrimFloat.sub (x zyx) M_PI)
  else if PrimFloat.leb (PrimFloat.sub lower tol) (y zyx)
          && PrimFloat.leb (y zyx) (PrimFloat.add lower tol) then
    let zyx := set_z zyx (PrimFloat.add (z zyx) (x zyx)) in
    set_x zyx zero
  else if PrimFloat.ltb (PrimFloat.add lower tol) (y zyx)
          && PrimFloat.ltb (y zyx) (PrimFloat.sub upper tol) then
    zyx
  else if PrimFloat.leb (PrimFloat.sub upper tol) (y zyx)
          && PrimFloat.leb (y zyx) (PrimFloat.add upper tol) then
    let zyx := set_z zyx (PrimFloat.sub (z zyx) (x zyx)) in
    set_x zyx zero
  else
    let zyx := if PrimFloat.ltb (z zyx) zero
               then set_z zyx (PrimFloat.add (z zyx) M_PI)
               else set_z zyx (PrimFloat.sub (z zyx) M_PI) in
    let zyx := set_y zyx (PrimFloat.opp (PrimFloat.sub (y zyx) M_PI)) in
    if PrimFloat.ltb (x zyx) zero
    then set_x zyx (PrimFloat.add (x zyx) M_PI)
    else set_x zyx (PrimFloat.sub (x zyx) M_PI).

Definition getUnique (this : EulerAnglesZyxD) : EulerAnglesZyxD :=
  mkEulerAnglesZyxD (bands (prewrap this)).

End Double.

(** ** Setters

    [setYaw] and [setZ] assign [zyx_(0)], [setPitch] and [setY] assign
    [zyx_(1)], [setRoll] and [setX] assign [zyx_(2)]. *)

(** [v(i) = a] on a 3-vector; the setters only use the indices 0, 1, 2. *)
Definition assign_coeff (v : Eigen.Vector3) (i : nat) (a : R) : Eigen.Vector3 :=
  match i with
  | 0%nat => Eigen.mkVector3 a (Eigen.coeff1 v) (Eigen.coeff2 v)
  | 1%nat => Eigen.mkVector3 (Eigen.coeff0 v) a (Eigen.coeff2 v)
  | 2%nat => Eigen.mkVector3 (Eigen.coeff0 v) (Eigen.coeff1 v) a
  | _ => v
  end.

Definition m_assign_coeff (i : nat) (a : R) : state EulerAnglesZyx unit :=
  bind get (fun this => put (mkEulerAnglesZyx (assign_coeff (zyx_ this) i a))).

Definition m_setYaw (yaw : R) : state EulerAnglesZyx unit := m_assign_coeff 0 yaw.
Definition m_setPitch (pitch : R) : state EulerAnglesZyx unit := m_assign_coeff 1 pitch.
Definition m_setRoll (roll : R) : state EulerAnglesZyx unit := m_assign_coeff 2 roll.
Definition m_setZ (z : R) : state EulerAnglesZyx unit := m_assign_coeff 0 z.
Definition m_setY (y : R) : state EulerAnglesZyx unit := m_assign_coeff 1 y.
Definition m_setX (x : R) : state EulerAnglesZyx unit := m_assign_coeff 2 x.

(** ** Elementary rotations

    The rotation matrices about the coordinate axes and their product in the
    order Z, Y, X.  They are not code of this header: they are the inputs on
    which the converter from a rotation matrix is exercised below. *)

Module Rot.

Definition Rz (a : R) : Eigen.Matrix3 :=
  Eigen.mkMatrix3 (cos a) (- sin a) 0
                  (sin a) (cos a)   0
                  0       0         1.

Definition Ry (a : R) : Eigen.Matrix3 :=
  Eigen.mkMatrix3 (cos a)   0 (sin a)
                  0         1 0
                  (- sin a) 0 (cos a).

Definition Rx (a : R) : Eigen.Matrix3 :=
  Eigen.mkMatrix3 1 0       0
                  0 (cos a) (- sin a)
                  0 (sin a) (cos a).

(** Rotation by [z] about Z, then by [y] about the new Y, then by [x] about
    the new X. *)
Definition zyx (z y x : R) : Eigen.Matrix3 :=
  Eigen.mul (Eigen.mul (Rz z) (Ry y)) (Rx x).

End Rot.

(** * Properties *)

(** ** Deciding the comparisons *)

Lemma Rltb_spec (a b : R) : reflect (a < b) (a <? b).
Proof. unfold Rltb; destruct (Rlt_dec a b); constructor; assumption. Qed.

Lemma Rleb_spec (a b : R) : reflect (a <= b) (a <=? b).
Proof. unfold Rleb; destruct (Rle_dec a b); constructor; assumption. Qed.

(** Split on every comparison that the goal tests. *)
Ltac by_cases :=
  repeat match goal with
         | |- context [Rltb ?a ?b] => destruct (Rltb_spec a b)
         | |- context [Rleb ?a ?b] => destruct (Rleb_spec a b)
         end.

Lemma M_PI_bounds : 3 < M_PI <= 4.
Proof.
  unfold M_PI; split.
  - pose proof PI2_3_2; lra.
  - exact PI_4.
Qed.

(** ** The modulus *)

Lemma floatingPointModulo_range (a n : R) :
  0 < n -> 0 <= common.floatingPointModulo a n < n.
Proof.
  intros Hn; unfold common.floatingPointModulo.
  destruct (base_Int_part (a / n)) as [Hlo Hhi].
  assert (Ha : a = n * (a / n)) by (field; lra).
  set (q := a / n) in *; set (k := IZR (Int_part q)) in *.
  split; nra.
Qed.

Lemma floatingPointModulo_eq (a n : R) (k : Z) :
  0 < n -> 0 <= a - n * IZR k < n ->
  common.floatingPointModulo a n = a - n * IZR k.
Proof.
  intros Hn [Hlo Hhi]; unfold common.floatingPointModulo.
  assert (Ha : a = n * (a / n)) by (field; lra).
  replace (Int_part (a / n)) with k; [reflexivity|].
  apply Int_part_spec.
  set (q := a / n) in *; rewrite Ha in Hlo, Hhi; split; nra.
Qed.

Lemma floatingPointModulo_small (a n : R) :
  0 <= a < n -> common.floatingPointModulo a n = a.
Proof.
  intros H.
  rewrite (floatingPointModulo_eq a n 0); [ring | lra | lra].
Qed.

(** The wrap of one angle, as the three arguments of the constructor of the
    local vector compute it. *)
Lemma wrap_range (a : R) :
  - M_PI <= common.floatingPointModulo (a + M_PI) (2 * M_PI) - M_PI < M_PI.
Proof.
  pose proof M_PI_bounds.
  pose proof (floatingPointModulo_range (a + M_PI) (2 * M_PI)); lra.
Qed.

Lemma wrap_id (a : R) :
  - M_PI <= a < M_PI ->
  common.floatingPointModulo (a + M_PI) (2 * M_PI) - M_PI = a.
Proof.
  intros H; rewrite floatingPointModulo_small; lra.
Qed.

Lemma wrap_down (a : R) :
  M_PI <= a < 3 * M_PI ->
  common.floatingPointModulo (a + M_PI) (2 * M_PI) - M_PI = a - 2 * M_PI.
Proof.
  intros H; pose proof M_PI_bounds.
  rewrite (floatingPointModulo_eq _ _ 1); lra.
Qed.

(** ** The five bands of getUnique *)

Ltac open_bands :=
  unfold Zyx.bands, Eigen.x, Eigen.y, Eigen.z,
         Eigen.set_x, Eigen.set_y, Eigen.set_z, Zyx.tol, M_PI in *;
  cbn [Eigen.coeff0 Eigen.coeff1 Eigen.coeff2] in *.

Ltac pi_bounds :=
  let H := fresh "HPI" in
  pose proof M_PI_bounds as H; unfold M_PI in H.

(** Closes a goal once every comparison is decided: either the case is
    impossible or the two vectors agree coefficient by coefficient. *)
Ltac close_case :=
  cbn [andb];
  first [ exfalso; lra
        | reflexivity
        | f_equal; lra ].

Lemma bands_below (v : Eigen.Vector3) :
  Eigen.coeff1 v < - PI / 2 - 1 / 1000 ->
  Zyx.bands v =
  Eigen.mkVector3
    (if Eigen.coeff0 v <? 0 then Eigen.coeff0 v + PI else Eigen.coeff0 v - PI)
    (- (Eigen.coeff1 v + PI))
    (if Eigen.coeff2 v <? 0 then Eigen.coeff2 v + PI else Eigen.coeff2 v - PI).
Proof.
  intros H; pi_bounds; open_bands.
  destruct (Rltb_spec (Eigen.coeff1 v) (- PI / 2 - 1 / 1000)); [|lra].
  destruct (Rltb_spec (Eigen.coeff2 v) 0); cbn [Eigen.coeff0 Eigen.coeff1 Eigen.coeff2];
    destruct (Rltb_spec (Eigen.coeff0 v) 0); reflexivity.
Qed.

Lemma bands_lower_singular (v : Eigen.Vector3) :
  - PI / 2 - 1 / 1000 <= Eigen.coeff1 v <= - PI / 2 + 1 / 1000 ->
  Zyx.bands v =
  Eigen.mkVector3 0 (Eigen.coeff1 v) (Eigen.coeff2 v + Eigen.coeff0 v).
Proof.
  intros H; pi_bounds; open_bands; by_cases; close_case.
Qed.

Lemma bands_middle (v : Eigen.Vector3) :
  - PI / 2 + 1 / 1000 < Eigen.coeff1 v < PI / 2 - 1 / 1000 ->
  Zyx.bands v = v.
Proof.
  intros H; pi_bounds; open_bands; by_cases; close_case.
Qed.

Lemma bands_upper_singular (v : Eigen.Vector3) :
  PI / 2 - 1 / 1000 <= Eigen.coeff1 v <= PI / 2 + 1 / 1000 ->
  Zyx.bands v =
  Eigen.mkVector3 0 (Eigen.coeff1 v) (Eigen.coeff2 v - Eigen.coeff0 v).
Proof.
  intros H; pi_bounds; open_bands; by_cases; close_case.
Qed.

Lemma bands_above (v : Eigen.Vector3) :
  PI / 2 + 1 / 1000 < Eigen.coeff1 v ->
  Zyx.bands v =
  Eigen.mkVector3
    (if Eigen.coeff0 v <? 0 then Eigen.coeff0 v + PI else Eigen.coeff0 v - PI)
    (- (Eigen.coeff1 v - PI))
    (if Eigen.coeff2 v <? 0 then Eigen.coeff2 v + PI else Eigen.coeff2 v - PI).
Proof.
  intros H; pi_bounds; open_bands.
  destruct (Rltb_spec (Eigen.coeff1 v) (- PI / 2 - 1 / 1000)); [lra|].
  destruct (Rleb_spec (- PI / 2 - 1 / 1000) (Eigen.coeff1 v)); [|lra].
  destruct (Rleb_spec (Eigen.coeff1 v) (- PI / 2 + 1 / 1000)); [lra|].
  destruct (Rltb_spec (- PI / 2 + 1 / 1000) (Eigen.coeff1 v)); [|lra].
  destruct (Rltb_spec (Eigen.coeff1 v) (PI / 2 - 1 / 1000)); [lra|].
  destruct (Rleb_spec (PI / 2 - 1 / 1000) (Eigen.coeff1 v)); [|lra].
  destruct (Rleb_spec (Eigen.coeff1 v) (PI / 2 + 1 / 1000)); [lra|].
  cbn [andb].
  destruct (Rltb_spec (Eigen.coeff2 v) 0); cbn [Eigen.coeff0 Eigen.coeff1 Eigen.coeff2];
    destruct (Rltb_spec (Eigen.coeff0 v) 0); reflexivity.
Qed.

(** The five conditions cover every pitch. *)
Lemma band_cases (p : R) :
  p < - PI / 2 - 1 / 1000 \/
  - PI / 2 - 1 / 1000 <= p <= - PI / 2 + 1 / 1000 \/
  - PI / 2 + 1 / 1000 < p < PI / 2 - 1 / 1000 \/
  PI / 2 - 1 / 1000 <= p <= PI / 2 + 1 / 1000 \/
  PI / 2 + 1 / 1000 < p.
Proof. pi_bounds; lra. Qed.

Lemma prewrap_id (t : EulerAnglesZyx) :
  - PI <= Zyx.z t < PI -> - PI <= Zyx.y t < PI -> - PI <= Zyx.x t < PI ->
  Zyx.prewrap t = zyx_ t.
Proof.
  intros Hz Hy Hx; unfold Zyx.prewrap.
  rewrite !wrap_id by (unfold M_PI; assumption).
  destruct t as [[a b c]]; reflexivity.
Qed.

(** Each coefficient of the wrapped vector is in [-PI, PI). *)
Lemma prewrap_in_range (t : EulerAnglesZyx) :
  let w := Zyx.prewrap t in
  - PI <= Eigen.coeff0 w < PI /\
  - PI <= Eigen.coeff1 w < PI /\
  - PI <= Eigen.coeff2 w < PI.
Proof.
  cbv zeta; unfold Zyx.prewrap; cbn [Eigen.coeff0 Eigen.coeff1 Eigen.coeff2].
  pose proof (wrap_range (Zyx.z t)); pose proof (wrap_range (Zyx.y t));
    pose proof (wrap_range (Zyx.x t)).
  unfold M_PI in *; lra.
Qed.

(** ** getUnique *)

(** C6. The first step of getUnique replaces each of the three angles [a]
    (yaw, pitch, roll) by [mod (a + PI, 2 PI) - PI]; the remainder is not
    negative and the wrapped angle lies in [-PI, PI), for every input. *)
Theorem getUnique_prewrap_range (t : EulerAnglesZyx) :
  let w := Zyx.prewrap t in
  Zyx.getUnique t = mkEulerAnglesZyx (Zyx.bands w) /\
  (Eigen.coeff0 w = common.floatingPointModulo (Zyx.yaw t + PI) (2 * PI) - PI /\
   Eigen.coeff1 w = common.floatingPointModulo (Zyx.pitch t + PI) (2 * PI) - PI /\
   Eigen.coeff2 w = common.floatingPointModulo (Zyx.roll t + PI) (2 * PI) - PI) /\
  (0 <= common.floatingPointModulo (Zyx.yaw t + PI) (2 * PI) /\
   0 <= common.floatingPointModulo (Zyx.pitch t + PI) (2 * PI) /\
   0 <= common.floatingPointModulo (Zyx.roll t + PI) (2 * PI)) /\
  (- PI <= Eigen.coeff0 w < PI /\
   - PI <= Eigen.coeff1 w < PI /\
   - PI <= Eigen.coeff2 w < PI).
Proof.
  pi_bounds; cbv zeta.
  split; [reflexivity|].
  split; [repeat split|].
  split.
  - repeat split; apply floatingPointModulo_range; lra.
  - exact (prewrap_in_range t).
Qed.

(** With exact arithmetic the wrap is the identity on [-PI, PI), and a
    triple in that range with its pitch in the middle band is returned as it
    is.  On doubles the wrap rounds, and this does not carry over. *)
Lemma getUnique_fixed_point (t : EulerAnglesZyx) :
  - PI <= Zyx.yaw t < PI ->
  - PI <= Zyx.pitch t < PI ->
  - PI <= Zyx.roll t < PI ->
  - PI / 2 + 1 / 1000 < Zyx.pitch t < PI / 2 - 1 / 1000 ->
  Zyx.getUnique t = t.
Proof.
  intros Hz Hy Hx Hband; unfold Zyx.getUnique.
  rewrite (prewrap_id t Hz Hy Hx).
  rewrite bands_middle by exact Hband.
  destruct t; reflexivity.
Qed.

(** C10, as amended.  When the wrapped pitch lies strictly between
    [-PI/2 + 1e-3] and [PI/2 - 1e-3], getUnique returns the wrapped triple:
    the middle band applies no transformation after the wrap, and each angle
    of the result is [mod (a + PI, 2 PI) - PI] of the angle of the input. *)
Theorem getUnique_middle_band (t : EulerAnglesZyx) :
  - PI / 2 + 1 / 1000 < Eigen.coeff1 (Zyx.prewrap t) < PI / 2 - 1 / 1000 ->
  Zyx.getUnique t = mkEulerAnglesZyx (Zyx.prewrap t) /\
  Zyx.yaw (Zyx.getUnique t)
  = common.floatingPointModulo (Zyx.yaw t + PI) (2 * PI) - PI /\
  Zyx.pitch (Zyx.getUnique t)
  = common.floatingPointModulo (Zyx.pitch t + PI) (2 * PI) - PI /\
  Zyx.roll (Zyx.getUnique t)
  = common.floatingPointModulo (Zyx.roll t + PI) (2 * PI) - PI.
Proof.
  intros Hband; unfold Zyx.getUnique.
  rewrite bands_middle by exact Hband.
  repeat split.
Qed.

Lemma getUnique_middle_band_witness :
  Zyx.getUnique (Zyx.make 1 (1 / 2) (- 2))
  = mkEulerAnglesZyx (Zyx.prewrap (Zyx.make 1 (1 / 2) (- 2))).
Proof.
  pose proof M_PI_bounds as HPI; unfold M_PI in HPI.
  apply (getUnique_middle_band (Zyx.make 1 (1 / 2) (- 2))).
  rewrite prewrap_id; unfold Zyx.make, Zyx.z, Zyx.y, Zyx.x; simpl; lra.
Defined.

(** C10, the claim as stated fails on doubles.  The largest double below
    [M_PI] is a yaw in [-PI, PI); with pitch and roll 0 the triple meets the
    conditions of the claim, but [a + M_PI] rounds to [2 * M_PI], the
    remainder is 0 and getUnique returns the yaw [-M_PI].  The triple
    (0.1, 0.2, -0.3) comes back with every angle changed in its last
    digits. *)
Lemma double_getUnique_moves_triple :
  let a := 0x1.921fb54442d17p+1%float in
  let t := Double.make a Double.zero Double.zero in
  PrimFloat.leb (PrimFloat.opp Double.M_PI) a = true /\
  PrimFloat.ltb a Double.M_PI = true /\
  PrimFloat.ltb
    (PrimFloat.add (PrimFloat.div (PrimFloat.opp Double.M_PI) Double.two) Double.tol)
    Double.zero = true /\
  PrimFloat.ltb Double.zero
    (PrimFloat.sub (PrimFloat.div Double.M_PI Double.two) Double.tol) = true /\
  Double.getUnique t
  = Double.make (PrimFloat.opp Double.M_PI) Double.zero Double.zero /\
  Double.getUnique t <> t /\
  Double.getUnique
    (Double.make 0x1.999999999999ap-4%float 0x1.999999999999ap-3%float
                 (PrimFloat.opp 0x1.3333333333333p-2%float))
  = Double.make 0x1.99999999999a0p-4%float 0x1.99999999999a0p-3%float
                (PrimFloat.opp 0x1.3333333333330p-2%float).
Proof.
  cbv zeta.
  assert (G : Double.getUnique
                (Double.make 0x1.921fb54442d17p+1%float Double.zero Double.zero)
              = Double.make (PrimFloat.opp Double.M_PI) Double.zero Double.zero)
    by (vm_compute; reflexivity).
  split; [vm_compute; reflexivity|].
  split; [vm_compute; reflexivity|].
  split; [vm_compute; reflexivity|].
  split; [vm_compute; reflexivity|].
  split; [exact G|].
  split; [|vm_compute; reflexivity].
  rewrite G; intros E.
  apply (f_equal (fun e => PrimFloat.ltb (Double.coeff0 (Double.zyx_ e)) Double.zero)) in E.
  vm_compute in E; discriminate E.
Qed.


(** What the two singular branches do to the wrapped vector [w]: coefficient
    0 (the yaw) becomes 0 and coefficient 2 (the roll) receives roll + yaw in
    the lower band and roll - yaw in the upper band. *)
Lemma getUnique_lower_singular (t : EulerAnglesZyx) :
  let w := Zyx.prewrap t in
  - PI / 2 - 1 / 1000 <= Eigen.coeff1 w <= - PI / 2 + 1 / 1000 ->
  Zyx.getUnique t =
  Zyx.make 0 (Eigen.coeff1 w) (Eigen.coeff2 w + Eigen.coeff0 w).
Proof.
  intros w H; unfold Zyx.getUnique; fold w.
  rewrite bands_lower_singular by exact H; reflexivity.
Qed.

Lemma getUnique_upper_singular (t : EulerAnglesZyx) :
  let w := Zyx.prewrap t in
  PI / 2 - 1 / 1000 <= Eigen.coeff1 w <= PI / 2 + 1 / 1000 ->
  Zyx.getUnique t =
  Zyx.make 0 (Eigen.coeff1 w) (Eigen.coeff2 w - Eigen.coeff0 w).
Proof.
  intros w H; unfold Zyx.getUnique; fold w.
  rewrite bands_upper_singular by exact H; reflexivity.
Qed.

(** The wrap leaves a triple of small angles as it is. *)
Lemma prewrap_make (a b c : R) :
  - PI <= a < PI -> - PI <= b < PI -> - PI <= c < PI ->
  Zyx.prewrap (Zyx.make a b c) = Eigen.mkVector3 a b c.
Proof.
  intros Ha Hb Hc.
  rewrite prewrap_id; [reflexivity | assumption ..].
Qed.

(** C5. In the singular bands the code does not produce z' = z + x (resp.
    z - x) and x' = 0.  For the wrapped triple (1, -PI/2, 2) the result is
    (0, -PI/2, 3): the yaw is zeroed and the roll receives the sum, where the
    claim has yaw 3 and roll 0.  For (1, PI/2, 2) the result is (0, PI/2, 1),
    where the claim has yaw -1 and roll 0.  The pitch is unchanged. *)
Theorem getUnique_singular_yaw_zeroed :
  let lo := Zyx.make 1 (- PI / 2) 2 in
  let hi := Zyx.make 1 (PI / 2) 2 in
  Zyx.prewrap lo = Eigen.mkVector3 1 (- PI / 2) 2 /\
  Zyx.getUnique lo = Zyx.make 0 (- PI / 2) 3 /\
  Zyx.z (Zyx.getUnique lo) <> 1 + 2 /\
  Zyx.x (Zyx.getUnique lo) <> 0 /\
  Zyx.prewrap hi = Eigen.mkVector3 1 (PI / 2) 2 /\
  Zyx.getUnique hi = Zyx.make 0 (PI / 2) 1 /\
  Zyx.z (Zyx.getUnique hi) <> 1 - 2 /\
  Zyx.x (Zyx.getUnique hi) <> 0.
Proof.
  pi_bounds; cbv zeta.
  assert (Wlo : Zyx.prewrap (Zyx.make 1 (- PI / 2) 2) = Eigen.mkVector3 1 (- PI / 2) 2)
    by (apply prewrap_make; lra).
  assert (Whi : Zyx.prewrap (Zyx.make 1 (PI / 2) 2) = Eigen.mkVector3 1 (PI / 2) 2)
    by (apply prewrap_make; lra).
  assert (Glo : Zyx.getUnique (Zyx.make 1 (- PI / 2) 2) = Zyx.make 0 (- PI / 2) 3).
  { rewrite getUnique_lower_singular; rewrite Wlo; cbn [Eigen.coeff0 Eigen.coeff1 Eigen.coeff2].
    - unfold Zyx.make; do 2 f_equal; lra.
    - lra. }
  assert (Ghi : Zyx.getUnique (Zyx.make 1 (PI / 2) 2) = Zyx.make 0 (PI / 2) 1).
  { rewrite getUnique_upper_singular; rewrite Whi; cbn [Eigen.coeff0 Eigen.coeff1 Eigen.coeff2].
    - unfold Zyx.make; do 2 f_equal; lra.
    - lra. }
  rewrite Glo, Ghi.
  unfold Zyx.z, Zyx.x, Zyx.make; cbn [zyx_ Eigen.coeff0 Eigen.coeff2].
  repeat split; try assumption; lra.
Qed.

(** The lower singular branch on (3, -PI/2, 3). *)
Lemma getUnique_3_3 :
  Zyx.getUnique (Zyx.make 3 (- PI / 2) 3) = Zyx.make 0 (- PI / 2) 6.
Proof.
  pi_bounds.
  rewrite getUnique_lower_singular; rewrite prewrap_make by lra;
    cbn [Eigen.coeff0 Eigen.coeff1 Eigen.coeff2].
  - unfold Zyx.make; do 2 f_equal; lra.
  - lra.
Qed.

(** C1. The result of getUnique is not always in the box
    [-PI, PI) x [-PI/2, PI/2) x [-PI, PI).  For (3, -PI/2, 3) the lower
    singular branch returns (0, -PI/2, 6), whose roll 6 is above PI; the sum
    is not wrapped again.  A pitch inside the tolerance band is kept as it
    is, also when it is below -PI/2 or equal to PI/2. *)
Theorem getUnique_leaves_box :
  let t := Zyx.make 3 (- PI / 2) 3 in
  Zyx.getUnique t = Zyx.make 0 (- PI / 2) 6 /\
  ~ (- PI <= Zyx.x (Zyx.getUnique t) < PI) /\
  Zyx.getUnique (Zyx.make 0 (- PI / 2 - 1 / 2000) 0)
    = Zyx.make 0 (- PI / 2 - 1 / 2000) 0 /\
  ~ (- PI / 2 <= Zyx.y (Zyx.getUnique (Zyx.make 0 (- PI / 2 - 1 / 2000) 0)) < PI / 2) /\
  Zyx.getUnique (Zyx.make 0 (PI / 2) 0) = Zyx.make 0 (PI / 2) 0 /\
  ~ (- PI / 2 <= Zyx.y (Zyx.getUnique (Zyx.make 0 (PI / 2) 0)) < PI / 2).
Proof.
  pi_bounds; cbv zeta.
  pose proof getUnique_3_3 as G1.
  assert (G2 : Zyx.getUnique (Zyx.make 0 (- PI / 2 - 1 / 2000) 0)
               = Zyx.make 0 (- PI / 2 - 1 / 2000) 0).
  { rewrite getUnique_lower_singular; rewrite prewrap_make by lra;
      cbn [Eigen.coeff0 Eigen.coeff1 Eigen.coeff2].
    - unfold Zyx.make; do 2 f_equal; lra.
    - lra. }
  assert (G3 : Zyx.getUnique (Zyx.make 0 (PI / 2) 0) = Zyx.make 0 (PI / 2) 0).
  { rewrite getUnique_upper_singular; rewrite prewrap_make by lra;
      cbn [Eigen.coeff0 Eigen.coeff1 Eigen.coeff2].
    - unfold Zyx.make; do 2 f_equal; lra.
    - lra. }
  rewrite G1, G2, G3.
  unfold Zyx.x, Zyx.y, Zyx.make; cbn [zyx_ Eigen.coeff1 Eigen.coeff2].
  repeat split; try reflexivity; lra.
Qed.

(** C2. getUnique is not idempotent.  For t = (3, -PI/2, 3) the first
    application returns (0, -PI/2, 6); the second wraps the roll and returns
    (0, -PI/2, 6 - 2 PI).  The two results differ by 2 PI in the roll. *)
Theorem getUnique_twice_differs :
  let t := Zyx.make 3 (- PI / 2) 3 in
  Zyx.getUnique t = Zyx.make 0 (- PI / 2) 6 /\
  Zyx.getUnique (Zyx.getUnique t) = Zyx.make 0 (- PI / 2) (6 - 2 * PI) /\
  Zyx.x (Zyx.getUnique t) - Zyx.x (Zyx.getUnique (Zyx.getUnique t)) = 2 * PI /\
  Zyx.getUnique (Zyx.getUnique t) <> Zyx.getUnique t.
Proof.
  pi_bounds; cbv zeta.
  pose proof getUnique_3_3 as G1.
  assert (W2 : Zyx.prewrap (Zyx.make 0 (- PI / 2) 6)
               = Eigen.mkVector3 0 (- PI / 2) (6 - 2 * PI)).
  { unfold Zyx.prewrap, Zyx.make, Zyx.z, Zyx.y, Zyx.x;
      cbn [zyx_ Eigen.coeff0 Eigen.coeff1 Eigen.coeff2].
    rewrite !wrap_id by (unfold M_PI; lra).
    rewrite wrap_down by (unfold M_PI; lra).
    reflexivity. }
  assert (G2 : Zyx.getUnique (Zyx.make 0 (- PI / 2) 6)
               = Zyx.make 0 (- PI / 2) (6 - 2 * PI)).
  { rewrite getUnique_lower_singular; rewrite W2;
      cbn [Eigen.coeff0 Eigen.coeff1 Eigen.coeff2].
    - unfold Zyx.make; do 2 f_equal; lra.
    - lra. }
  rewrite G1, G2.
  split; [reflexivity|]. split; [reflexivity|].
  unfold Zyx.x, Zyx.make; cbn [zyx_ Eigen.coeff2].
  split; [lra|].
  intros E; injection E as E; lra.
Qed.

(** *** Where the box and idempotence do hold *)

(** Outside the two singular bands the result is in the box. *)
Lemma getUnique_range_regular (t : EulerAnglesZyx) :
  let w := Zyx.prewrap t in
  Eigen.coeff1 w < - PI / 2 - 1 / 1000 \/
  - PI / 2 + 1 / 1000 < Eigen.coeff1 w < PI / 2 - 1 / 1000 \/
  PI / 2 + 1 / 1000 < Eigen.coeff1 w ->
  - PI <= Zyx.z (Zyx.getUnique t) < PI /\
  - PI / 2 <= Zyx.y (Zyx.getUnique t) < PI / 2 /\
  - PI <= Zyx.x (Zyx.getUnique t) < PI.
Proof.
  intros w H; pi_bounds.
  destruct (prewrap_in_range t) as (R0 & R1 & R2).
  fold w in R0, R1, R2.
  unfold Zyx.getUnique, Zyx.z, Zyx.y, Zyx.x; fold w; cbn [zyx_].
  destruct H as [H | [H | H]].
  - rewrite bands_below by exact H; cbn [Eigen.coeff0 Eigen.coeff1 Eigen.coeff2].
    by_cases; lra.
  - rewrite bands_middle by exact H; lra.
  - rewrite bands_above by exact H; cbn [Eigen.coeff0 Eigen.coeff1 Eigen.coeff2].
    by_cases; lra.
Qed.

(** Yaw and pitch of the result are always in [-PI, PI). *)
Lemma getUnique_yaw_pitch_range (t : EulerAnglesZyx) :
  - PI <= Zyx.yaw (Zyx.getUnique t) < PI /\
  - PI <= Zyx.pitch (Zyx.getUnique t) < PI.
Proof.
  pi_bounds.
  destruct (prewrap_in_range t) as (R0 & R1 & R2).
  unfold Zyx.getUnique, Zyx.yaw, Zyx.pitch; cbn [zyx_].
  set (w := Zyx.prewrap t) in *.
  destruct (band_cases (Eigen.coeff1 w)) as [H | [H | [H | [H | H]]]].
  - rewrite bands_below by exact H; cbn [Eigen.coeff0 Eigen.coeff1]; by_cases; lra.
  - rewrite bands_lower_singular by exact H; cbn [Eigen.coeff0 Eigen.coeff1]; lra.
  - rewrite bands_middle by exact H; lra.
  - rewrite bands_upper_singular by exact H; cbn [Eigen.coeff0 Eigen.coeff1]; lra.
  - rewrite bands_above by exact H; cbn [Eigen.coeff0 Eigen.coeff1]; by_cases; lra.
Qed.

(** On a wrapped pitch the branch chain is idempotent. *)
Lemma bands_idempotent (v : Eigen.Vector3) :
  - PI <= Eigen.coeff1 v < PI ->
  Zyx.bands (Zyx.bands v) = Zyx.bands v.
Proof.
  intros Hv; pi_bounds.
  destruct (band_cases (Eigen.coeff1 v)) as [H | [H | [H | [H | H]]]].
  - rewrite (bands_below v H).
    apply bands_middle; cbn [Eigen.coeff1]; lra.
  - rewrite (bands_lower_singular v H).
    rewrite bands_lower_singular by (cbn [Eigen.coeff1]; exact H).
    cbn [Eigen.coeff0 Eigen.coeff1 Eigen.coeff2]; f_equal; lra.
  - rewrite (bands_middle v H). apply bands_middle; exact H.
  - rewrite (bands_upper_singular v H).
    rewrite bands_upper_singular by (cbn [Eigen.coeff1]; exact H).
    cbn [Eigen.coeff0 Eigen.coeff1 Eigen.coeff2]; f_equal; lra.
  - rewrite (bands_above v H).
    apply bands_middle; cbn [Eigen.coeff1]; lra.
Qed.

(** getUnique is idempotent on every input whose result has its roll in
    [-PI, PI). *)
Lemma getUnique_idempotent_in_range (t : EulerAnglesZyx) :
  - PI <= Zyx.roll (Zyx.getUnique t) < PI ->
  Zyx.getUnique (Zyx.getUnique t) = Zyx.getUnique t.
Proof.
  intros Hx.
  destruct (getUnique_yaw_pitch_range t) as [Hz Hy].
  destruct (prewrap_in_range t) as (_ & R1 & _).
  unfold Zyx.getUnique at 1.
  rewrite (prewrap_id _ Hz Hy Hx).
  unfold Zyx.getUnique; cbn [zyx_].
  rewrite bands_idempotent by exact R1; reflexivity.
Qed.

(** ** Conversion from a rotation matrix *)

(** The coefficient that feeds [asin] is within [-1, 1] for every matrix
    with orthonormal columns, hence for every rotation matrix. *)
Lemma orthonormal_m20_bound (m : Eigen.Matrix3) :
  Mat.orthonormal m -> -1 <= Eigen.m20 m <= 1.
Proof.
  unfold Mat.orthonormal; intros H.
  apply (f_equal Eigen.m00) in H.
  destruct m; cbn in H |- *; nra.
Qed.

Lemma asin_defined (a : R) :
  -1 <= a <= 1 -> cmath.asin a = Some (Ratan.asin a).
Proof.
  intros H; unfold cmath.asin.
  destruct (Rleb_spec (-1) a); [|lra].
  destruct (Rleb_spec a 1); [reflexivity | lra].
Qed.

Lemma asin_nan (a : R) : ~ (-1 <= a <= 1) -> cmath.asin a = None.
Proof.
  intros H; unfold cmath.asin.
  destruct (Rleb_spec (-1) a); destruct (Rleb_spec a 1); try reflexivity.
  exfalso; apply H; split; assumption.
Qed.

(** The result in terms of the coefficients of R itself, when [asin] has a
    value. *)
Lemma convert_RotationMatrix_defined (R : RotationMatrix) :
  -1 <= Eigen.m20 (matrix_ R) <= 1 ->
  convert_RotationMatrix R =
  Some (Zyx.make (cmath.atan2 (Eigen.m10 (matrix_ R)) (Eigen.m00 (matrix_ R)))
                 (- Ratan.asin (Eigen.m20 (matrix_ R)))
                 (cmath.atan2 (Eigen.m21 (matrix_ R)) (Eigen.m22 (matrix_ R)))).
Proof.
  intros H.
  unfold convert_RotationMatrix, Mat.toImplementation, Eigen.transpose.
  cbn [Eigen.m00 Eigen.m01 Eigen.m02 Eigen.m12 Eigen.m22].
  rewrite (asin_defined _ H); reflexivity.
Qed.

(** Outside [-1, 1] the pitch is NaN: nothing clamps. *)
Lemma convert_RotationMatrix_nan (R : RotationMatrix) :
  ~ (-1 <= Eigen.m20 (matrix_ R) <= 1) ->
  convert_RotationMatrix R = None.
Proof.
  intros H.
  unfold convert_RotationMatrix, Mat.toImplementation, Eigen.transpose.
  cbn [Eigen.m00 Eigen.m01 Eigen.m02 Eigen.m12 Eigen.m22].
  rewrite (asin_nan _ H); reflexivity.
Qed.

(** C4, as amended.  For a matrix R whose coefficient R(2,0) is within
    [-1, 1], as it is for every rotation matrix, the converter works on R_B,
    the transpose of R, and returns yaw = atan2 (r12, r11),
    pitch = - asin (r13), which lies in [-PI/2, PI/2] because asin does, and
    roll = atan2 (r23, r33), where r_ij are the coefficients of R_B counted
    from 1; in terms of R itself these are the mirrored coefficients. *)
Theorem convert_RotationMatrix_extraction (R : RotationMatrix) :
  -1 <= Eigen.m20 (Mat.toImplementation R) <= 1 ->
  let R_B := Eigen.transpose (Mat.toImplementation R) in
  exists e : EulerAnglesZyx,
    convert_RotationMatrix R = Some e /\
    Zyx.yaw e = cmath.atan2 (Eigen.m01 R_B) (Eigen.m00 R_B) /\
    Some (Zyx.pitch e) = option_map Ropp (cmath.asin (Eigen.m02 R_B)) /\
    - PI / 2 <= Zyx.pitch e <= PI / 2 /\
    Zyx.roll e = cmath.atan2 (Eigen.m12 R_B) (Eigen.m22 R_B) /\
    Zyx.yaw e = cmath.atan2 (Eigen.m10 (matrix_ R)) (Eigen.m00 (matrix_ R)) /\
    Zyx.pitch e = - Ratan.asin (Eigen.m20 (matrix_ R)) /\
    Zyx.roll e = cmath.atan2 (Eigen.m21 (matrix_ R)) (Eigen.m22 (matrix_ R)).
Proof.
  intros Hdom R_B.
  unfold Mat.toImplementation in Hdom.
  eexists; split; [apply convert_RotationMatrix_defined; exact Hdom|].
  unfold R_B, Zyx.make, Zyx.yaw, Zyx.pitch, Zyx.roll,
    Mat.toImplementation, Eigen.transpose.
  cbn [zyx_ Eigen.coeff0 Eigen.coeff1 Eigen.coeff2
       Eigen.m00 Eigen.m01 Eigen.m02 Eigen.m12 Eigen.m22].
  rewrite (asin_defined _ Hdom).
  pose proof (asin_bound (Eigen.m20 (matrix_ R))) as Hb.
  repeat split; lra.
Qed.

Lemma atan2_1_0 : cmath.atan2 1 0 = PI / 2.
Proof. unfold cmath.atan2; by_cases; try reflexivity; lra. Qed.

Lemma atan2_m1_0 : cmath.atan2 (-1) 0 = - (PI / 2).
Proof. unfold cmath.atan2; by_cases; try reflexivity; lra. Qed.

(** The quarter turn about Z: the converter reads the yaw off R(1,0) = 1 and
    R(0,0) = 0, the coefficients (0,1) and (0,0) of the transpose. *)
Lemma convert_RotationMatrix_extraction_witness :
  exists e : EulerAnglesZyx,
    convert_RotationMatrix (mkRotationMatrix (Eigen.mkMatrix3 0 (-1) 0  1 0 0  0 0 1))
    = Some e /\
    Zyx.yaw e = cmath.atan2 1 0 /\
    - PI / 2 <= Zyx.pitch e <= PI / 2.
Proof.
  assert (Hdom : -1 <= Eigen.m20 (Mat.toImplementation
                        (mkRotationMatrix (Eigen.mkMatrix3 0 (-1) 0  1 0 0  0 0 1))) <= 1)
    by (simpl; lra).
  destruct (convert_RotationMatrix_extraction _ Hdom)
    as (e & He & Hyaw & _ & Hr & _).
  exists e; split; [exact He|]. split; [exact Hyaw | exact Hr].
Defined.

(** C4, the claim as stated fails: the pitch is not clamped.  For the matrix
    with R(2,0) = 2 the argument of asin is outside [-1, 1], the pitch is
    NaN and the converter returns no triple with a pitch in
    [-PI/2, PI/2]. *)
Lemma convert_RotationMatrix_not_clamped :
  let R := mkRotationMatrix (Eigen.mkMatrix3 1 0 0  0 1 0  2 0 1) in
  convert_RotationMatrix R = None /\
  ~ (exists e : EulerAnglesZyx,
        convert_RotationMatrix R = Some e /\ - PI / 2 <= Zyx.pitch e <= PI / 2).
Proof.
  cbv zeta.
  assert (N : convert_RotationMatrix
                (mkRotationMatrix (Eigen.mkMatrix3 1 0 0  0 1 0  2 0 1)) = None).
  { apply convert_RotationMatrix_nan; simpl; lra. }
  split; [exact N|].
  intros (e & He & _); rewrite N in He; discriminate He.
Qed.

(** For a rotation matrix the converter returns a triple, with its pitch
    within a quarter turn. *)
Lemma convert_RotationMatrix_pitch_range (R : RotationMatrix) :
  Mat.orthonormal (Mat.toImplementation R) ->
  exists e : EulerAnglesZyx,
    convert_RotationMatrix R = Some e /\ - PI / 2 <= Zyx.pitch e <= PI / 2.
Proof.
  intros H; apply orthonormal_m20_bound in H; unfold Mat.toImplementation in H.
  eexists; split; [apply convert_RotationMatrix_defined; exact H|].
  unfold Zyx.pitch, Zyx.make; cbn [zyx_ Eigen.coeff1].
  pose proof (asin_bound (Eigen.m20 (matrix_ R))); lra.
Qed.

(** The transpose matters: for the quarter turn about Z the converter reads
    the yaw PI/2 off R(1,0); the same formulas applied to R itself would read
    R(0,1) and give -PI/2. *)
Lemma convert_RotationMatrix_quarter_turn :
  let R := mkRotationMatrix (Eigen.mkMatrix3 0 (-1) 0  1 0 0  0 0 1) in
  option_map Zyx.yaw (convert_RotationMatrix R) = Some (PI / 2) /\
  cmath.atan2 (Eigen.m01 (matrix_ R)) (Eigen.m00 (matrix_ R)) = - (PI / 2).
Proof.
  cbv zeta; rewrite convert_RotationMatrix_defined by (simpl; lra).
  unfold Zyx.yaw, Zyx.make; simpl.
  rewrite atan2_1_0; split; [reflexivity | apply atan2_m1_0].
Qed.

(** ** Inversion and the receiver *)

Section ConversionProperties.

Variable toRotationMatrix : Eigen.Quaternion -> Eigen.Matrix3.
Variable eulerAngles : Eigen.Matrix3 -> nat -> nat -> nat -> Eigen.Vector3.
Variable quaternion_of_zyx : EulerAnglesZyx -> RotationQuaternion.

Local Abbreviation from_quaternion :=
  (convert_RotationQuaternion toRotationMatrix eulerAngles).
Local Abbreviation inv :=
  (inverted toRotationMatrix eulerAngles quaternion_of_zyx).
Local Abbreviation mem_inverted :=
  (m_inverted toRotationMatrix eulerAngles quaternion_of_zyx).
Local Abbreviation mem_invert :=
  (m_invert toRotationMatrix eulerAngles quaternion_of_zyx).

(** The conjugate of a unit quaternion is its inverse. *)
Lemma conjugate_is_inverse (q : RotationQuaternion) :
  Eigen.squaredNorm (quaternion_ q) = 1 ->
  Eigen.product (quaternion_ q) (quaternion_ (Quat.inverted q)) = Eigen.QIdentity /\
  Eigen.product (quaternion_ (Quat.inverted q)) (quaternion_ q) = Eigen.QIdentity.
Proof.
  destruct q as [[w a b c]].
  unfold Eigen.squaredNorm, Eigen.product, Eigen.QIdentity, Quat.inverted; cbn.
  intros H; split; f_equal; nra.
Qed.

(** C7. inverted converts the triple to a quaternion, inverts the
    quaternion and converts the result back: its angles are
    [eulerAngles (2, 1, 0)] of the rotation matrix of the conjugate of the
    quaternion of the triple, the conjugate is the inverse of a unit
    quaternion, and the result depends on the triple through its quaternion
    only.  A call of inverted returns that value and leaves the receiver;
    a call of invert leaves exactly that value in the receiver and returns
    it.  Both calls return a value on every triple: nothing in them can
    signal an error. *)
Theorem inverted_through_quaternion (r : EulerAnglesZyx) :
  let q := quaternion_of_zyx r in
  zyx_ (inv r) =
    eulerAngles
      (toRotationMatrix
         (Eigen.mkQuaternion (Eigen.qw (quaternion_ q)) (- Eigen.qx (quaternion_ q))
                             (- Eigen.qy (quaternion_ q)) (- Eigen.qz (quaternion_ q))))
      2 1 0 /\
  inv r = from_quaternion (Quat.inverted q) /\
  Quat.toImplementation (Quat.inverted q) =
    Eigen.mkQuaternion (Eigen.qw (quaternion_ q)) (- Eigen.qx (quaternion_ q))
                       (- Eigen.qy (quaternion_ q)) (- Eigen.qz (quaternion_ q)) /\
  (Eigen.squaredNorm (quaternion_ q) = 1 ->
   Eigen.product (quaternion_ q) (quaternion_ (Quat.inverted q)) = Eigen.QIdentity /\
   Eigen.product (quaternion_ (Quat.inverted q)) (quaternion_ q) = Eigen.QIdentity) /\
  (forall s : EulerAnglesZyx,
      quaternion_of_zyx s = quaternion_of_zyx r -> inv s = inv r) /\
  call mem_inverted r = (inv r, r) /\
  call mem_invert r = (inv r, inv r) /\
  receiver mem_invert r = returned mem_inverted r.
Proof.
  cbv zeta.
  assert (E : inv r = from_quaternion (Quat.inverted (quaternion_of_zyx r))).
  { unfold inverted, Zyx.toImplementation.
    destruct (from_quaternion (Quat.inverted (quaternion_of_zyx r))); reflexivity. }
  split; [reflexivity|].
  split; [exact E|].
  split; [reflexivity|].
  split; [apply conjugate_is_inverse|].
  split; [intros s Hs; unfold inverted; rewrite Hs; reflexivity|].
  unfold receiver, returned, call, m_invert, m_inverted, assign.
  cbn; repeat split; reflexivity.
Qed.

(** C9. getUnique and inverted leave the receiver as it is: after the call
    the three stored angles are the ones before the call.  setUnique and
    invert do assign the receiver. *)
Theorem const_members_keep_receiver (r : EulerAnglesZyx) :
  receiver m_getUnique r = r /\
  receiver mem_inverted r = r /\
  (Zyx.z (receiver m_getUnique r) = Zyx.z r /\
   Zyx.y (receiver m_getUnique r) = Zyx.y r /\
   Zyx.x (receiver m_getUnique r) = Zyx.x r) /\
  (Zyx.z (receiver mem_inverted r) = Zyx.z r /\
   Zyx.y (receiver mem_inverted r) = Zyx.y r /\
   Zyx.x (receiver mem_inverted r) = Zyx.x r) /\
  returned m_getUnique r = Zyx.getUnique r /\
  returned mem_inverted r = inv r /\
  receiver m_setUnique r = Zyx.getUnique r /\
  receiver mem_invert r = inv r.
Proof.
  unfold receiver, returned, call, m_getUnique, m_setUnique,
    m_inverted, m_invert, assign.
  destruct r as [v]; cbn; repeat split; reflexivity.
Qed.

(** What the header fixes about printing: the row handed to Eigen holds
    the angles in the order z, y, x. *)
Lemma operator_shl_order (print_row : R -> R -> R -> string)
      (out : string) (t : EulerAnglesZyx) :
  operator_shl print_row out t =
  (out ++ print_row (Zyx.z t) (Zyx.y t) (Zyx.x t))%string.
Proof. reflexivity. Qed.

End ConversionProperties.

(** * Further properties of getUnique *)

(** The wrap when only yaw and pitch are known to be small. *)
Lemma prewrap_make_roll (a b c : R) :
  - PI <= a < PI -> - PI <= b < PI ->
  Zyx.prewrap (Zyx.make a b c) =
  Eigen.mkVector3 a b (common.floatingPointModulo (c + M_PI) (2 * M_PI) - M_PI).
Proof.
  intros Ha Hb.
  unfold Zyx.prewrap, Zyx.make, Zyx.z, Zyx.y, Zyx.x;
    cbn [zyx_ Eigen.coeff0 Eigen.coeff1 Eigen.coeff2].
  rewrite (wrap_id a) by (unfold M_PI; lra).
  rewrite (wrap_id b) by (unfold M_PI; lra).
  reflexivity.
Qed.

(** The pitch of the result is within the tolerance of [-PI/2, PI/2]. *)
Lemma getUnique_pitch_tolerance (t : EulerAnglesZyx) :
  - PI / 2 - 1 / 1000 <= Zyx.pitch (Zyx.getUnique t) <= PI / 2 + 1 / 1000.
Proof.
  pi_bounds.
  destruct (prewrap_in_range t) as (R0 & R1 & R2).
  unfold Zyx.getUnique, Zyx.pitch; cbn [zyx_].
  set (w := Zyx.prewrap t) in *.
  destruct (band_cases (Eigen.coeff1 w)) as [H | [H | [H | [H | H]]]].
  - rewrite bands_below by exact H; cbn [Eigen.coeff1]; lra.
  - rewrite bands_lower_singular by exact H; cbn [Eigen.coeff1]; lra.
  - rewrite bands_middle by exact H; lra.
  - rewrite bands_upper_singular by exact H; cbn [Eigen.coeff1]; lra.
  - rewrite bands_above by exact H; cbn [Eigen.coeff1]; lra.
Qed.

(** X1. Bounds that hold for every input: the yaw is in [-PI, PI), the pitch is
    within the tolerance of [-PI/2, PI/2], and the roll is in
    [-2 PI, 2 PI). *)
Theorem getUnique_always_within (t : EulerAnglesZyx) :
  - PI <= Zyx.yaw (Zyx.getUnique t) < PI /\
  - PI / 2 - 1 / 1000 <= Zyx.pitch (Zyx.getUnique t) <= PI / 2 + 1 / 1000 /\
  - (2 * PI) <= Zyx.roll (Zyx.getUnique t) < 2 * PI.
Proof.
  pi_bounds.
  split; [exact (proj1 (getUnique_yaw_pitch_range t))|].
  split; [exact (getUnique_pitch_tolerance t)|].
  destruct (prewrap_in_range t) as (R0 & R1 & R2).
  unfold Zyx.getUnique, Zyx.roll; cbn [zyx_].
  set (w := Zyx.prewrap t) in *.
  destruct (band_cases (Eigen.coeff1 w)) as [H | [H | [H | [H | H]]]].
  - rewrite bands_below by exact H; cbn [Eigen.coeff2]; by_cases; lra.
  - rewrite bands_lower_singular by exact H; cbn [Eigen.coeff2]; lra.
  - rewrite bands_middle by exact H; lra.
  - rewrite bands_upper_singular by exact H; cbn [Eigen.coeff2]; lra.
  - rewrite bands_above by exact H; cbn [Eigen.coeff2]; by_cases; lra.
Qed.

(** After two applications the roll is in [-PI, PI). *)
Lemma getUnique_twice_roll_range (t : EulerAnglesZyx) :
  - PI <= Zyx.roll (Zyx.getUnique (Zyx.getUnique t)) < PI.
Proof.
  pi_bounds.
  destruct (prewrap_in_range t) as (R0 & R1 & R2).
  set (w := Zyx.prewrap t) in *.
  assert (Hreg :
            Eigen.coeff1 w < - PI / 2 - 1 / 1000 \/
            - PI / 2 + 1 / 1000 < Eigen.coeff1 w < PI / 2 - 1 / 1000 \/
            PI / 2 + 1 / 1000 < Eigen.coeff1 w ->
            - PI <= Zyx.roll (Zyx.getUnique (Zyx.getUnique t)) < PI).
  { intros H.
    destruct (getUnique_range_regular t H) as (_ & _ & Hx).
    rewrite getUnique_idempotent_in_range; exact Hx. }
  destruct (band_cases (Eigen.coeff1 w)) as [H | [H | [H | [H | H]]]];
    try (apply Hreg; tauto).
  - rewrite (getUnique_lower_singular t H); fold w.
    rewrite getUnique_lower_singular;
      rewrite prewrap_make_roll by lra;
      cbn [Eigen.coeff0 Eigen.coeff1 Eigen.coeff2]; [|exact H].
    unfold Zyx.roll, Zyx.make; cbn [zyx_ Eigen.coeff2].
    pose proof (wrap_range (Eigen.coeff2 w + Eigen.coeff0 w)) as Hw.
    unfold M_PI in *; lra.
  - rewrite (getUnique_upper_singular t H); fold w.
    rewrite getUnique_upper_singular;
      rewrite prewrap_make_roll by lra;
      cbn [Eigen.coeff0 Eigen.coeff1 Eigen.coeff2]; [|exact H].
    unfold Zyx.roll, Zyx.make; cbn [zyx_ Eigen.coeff2].
    pose proof (wrap_range (Eigen.coeff2 w - Eigen.coeff0 w)) as Hw.
    unfold M_PI in *; lra.
Qed.

(** X2. A second application can change the result only through the wrap:
    getUnique is idempotent at [t] exactly when the wrap leaves the three
    angles of [getUnique t] as they are, and the branch chain applied to the
    result once more changes nothing. *)
Theorem getUnique_idempotent_iff (t : EulerAnglesZyx) :
  (Zyx.getUnique (Zyx.getUnique t) = Zyx.getUnique t <->
   Zyx.prewrap (Zyx.getUnique t) = zyx_ (Zyx.getUnique t)) /\
  Zyx.bands (zyx_ (Zyx.getUnique t)) = zyx_ (Zyx.getUnique t).
Proof.
  assert (B : Zyx.bands (zyx_ (Zyx.getUnique t)) = zyx_ (Zyx.getUnique t)).
  { destruct (prewrap_in_range t) as (_ & R1 & _).
    unfold Zyx.getUnique; cbn [zyx_].
    apply bands_idempotent; exact R1. }
  split; [|exact B].
  split.
  - intros E.
    destruct (getUnique_yaw_pitch_range t) as [Hz Hy].
    apply prewrap_id; try assumption.
    rewrite <- E; apply getUnique_twice_roll_range.
  - intros P.
    unfold Zyx.getUnique at 1; rewrite P, B.
    destruct (Zyx.getUnique t); reflexivity.
Qed.

(** X3. Two applications reach a fixed point: a third one changes nothing, and
    the value reached has yaw and roll in [-PI, PI) and its pitch within the
    tolerance of [-PI/2, PI/2]. *)
Theorem getUnique_stabilises (t : EulerAnglesZyx) :
  let u := Zyx.getUnique (Zyx.getUnique t) in
  Zyx.getUnique u = u /\
  - PI <= Zyx.yaw u < PI /\
  - PI / 2 - 1 / 1000 <= Zyx.pitch u <= PI / 2 + 1 / 1000 /\
  - PI <= Zyx.roll u < PI.
Proof.
  cbv zeta.
  pose proof (getUnique_twice_roll_range t) as Hx.
  pose proof (proj1 (getUnique_yaw_pitch_range (Zyx.getUnique t))) as Hz.
  pose proof (getUnique_pitch_tolerance (Zyx.getUnique t)) as Hy.
  split; [apply getUnique_idempotent_in_range; exact Hx|].
  split; [exact Hz|]. split; [exact Hy | exact Hx].
Qed.

(** Outside the two singular bands the pitch of the result is strictly
    inside the middle band. *)
Lemma getUnique_regular_pitch (t : EulerAnglesZyx) :
  Eigen.coeff1 (Zyx.prewrap t) < - PI / 2 - 1 / 1000 \/
  - PI / 2 + 1 / 1000 < Eigen.coeff1 (Zyx.prewrap t) < PI / 2 - 1 / 1000 \/
  PI / 2 + 1 / 1000 < Eigen.coeff1 (Zyx.prewrap t) ->
  - PI / 2 + 1 / 1000 < Zyx.pitch (Zyx.getUnique t) < PI / 2 - 1 / 1000.
Proof.
  intros H; pi_bounds.
  destruct (prewrap_in_range t) as (R0 & R1 & R2).
  unfold Zyx.getUnique, Zyx.pitch; cbn [zyx_].
  set (w := Zyx.prewrap t) in *.
  destruct H as [H | [H | H]].
  - rewrite bands_below by exact H; cbn [Eigen.coeff1]; lra.
  - rewrite bands_middle by exact H; lra.
  - rewrite bands_above by exact H; cbn [Eigen.coeff1]; lra.
Qed.

(** X4. Outside the two singular bands the result is in the canonical box:
    yaw and roll are in [-PI, PI) and the pitch is strictly inside the
    middle band. *)
Theorem getUnique_regular_canonical (t : EulerAnglesZyx) :
  Eigen.coeff1 (Zyx.prewrap t) < - PI / 2 - 1 / 1000 \/
  - PI / 2 + 1 / 1000 < Eigen.coeff1 (Zyx.prewrap t) < PI / 2 - 1 / 1000 \/
  PI / 2 + 1 / 1000 < Eigen.coeff1 (Zyx.prewrap t) ->
  - PI <= Zyx.yaw (Zyx.getUnique t) < PI /\
  - PI / 2 + 1 / 1000 < Zyx.pitch (Zyx.getUnique t) < PI / 2 - 1 / 1000 /\
  - PI <= Zyx.roll (Zyx.getUnique t) < PI.
Proof.
  intros H.
  destruct (getUnique_range_regular t H) as (Hz & _ & Hx).
  split; [exact Hz|].
  split; [exact (getUnique_regular_pitch t H) | exact Hx].
Qed.

Lemma getUnique_regular_canonical_witness :
  - PI <= Zyx.yaw (Zyx.getUnique (Zyx.make 0 (5 / 2) 0)) < PI /\
  - PI / 2 + 1 / 1000 < Zyx.pitch (Zyx.getUnique (Zyx.make 0 (5 / 2) 0))
    < PI / 2 - 1 / 1000 /\
  - PI <= Zyx.roll (Zyx.getUnique (Zyx.make 0 (5 / 2) 0)) < PI.
Proof.
  pose proof M_PI_bounds as HPI; unfold M_PI in HPI.
  apply (getUnique_regular_canonical (Zyx.make 0 (5 / 2) 0)).
  rewrite prewrap_make by lra; simpl; lra.
Defined.

(** ** Whole turns *)

Lemma floatingPointModulo_period (a n : R) (k : Z) :
  0 < n ->
  common.floatingPointModulo (a + n * IZR k) n = common.floatingPointModulo a n.
Proof.
  intros Hn.
  pose proof (floatingPointModulo_range a n Hn) as Hr.
  unfold common.floatingPointModulo in Hr |- * at 2.
  rewrite (floatingPointModulo_eq (a + n * IZR k) n (Int_part (a / n) + k) Hn);
    rewrite plus_IZR.
  - ring.
  - lra.
Qed.

(** X5. Adding whole turns to any of the three angles does not change the
    result of getUnique. *)
Theorem getUnique_periodic (t : EulerAnglesZyx) (kz ky kx : Z) :
  Zyx.getUnique
    (Zyx.make (Zyx.yaw t + 2 * PI * IZR kz)
              (Zyx.pitch t + 2 * PI * IZR ky)
              (Zyx.roll t + 2 * PI * IZR kx))
  = Zyx.getUnique t.
Proof.
  pi_bounds.
  assert (W : forall (a : R) (k : Z),
             common.floatingPointModulo (a + 2 * PI * IZR k + M_PI) (2 * M_PI)
             = common.floatingPointModulo (a + M_PI) (2 * M_PI)).
  { intros a k; unfold M_PI.
    replace (a + 2 * PI * IZR k + PI) with (a + PI + 2 * PI * IZR k) by ring.
    apply floatingPointModulo_period; lra. }
  unfold Zyx.getUnique; do 2 f_equal.
  unfold Zyx.prewrap, Zyx.make, Zyx.z, Zyx.y, Zyx.x, Zyx.yaw, Zyx.pitch, Zyx.roll;
    cbn [zyx_ Eigen.coeff0 Eigen.coeff1 Eigen.coeff2].
  rewrite !W; reflexivity.
Qed.

(** ** The second representation of a regular rotation *)

(** X6. A canonical triple (z, y, x) with its pitch in the middle band has the
    second representation (z -+ PI, PI - y, x -+ PI); getUnique maps that
    one back to (z, y, x). *)
Theorem getUnique_mirror (t : EulerAnglesZyx) :
  - PI <= Zyx.yaw t < PI ->
  - PI <= Zyx.roll t < PI ->
  - PI / 2 + 1 / 1000 < Zyx.pitch t < PI / 2 - 1 / 1000 ->
  Zyx.getUnique
    (Zyx.make (if Zyx.yaw t <? 0 then Zyx.yaw t + PI else Zyx.yaw t - PI)
              (PI - Zyx.pitch t)
              (if Zyx.roll t <? 0 then Zyx.roll t + PI else Zyx.roll t - PI))
  = t.
Proof.
  intros Hz Hx Hy; pi_bounds.
  destruct t as [[a b c]].
  unfold Zyx.yaw, Zyx.pitch, Zyx.roll in *;
    cbn [zyx_ Eigen.coeff0 Eigen.coeff1 Eigen.coeff2] in *.
  set (a' := if a <? 0 then a + PI else a - PI).
  set (c' := if c <? 0 then c + PI else c - PI).
  assert (Ha' : - PI <= a' < PI) by (unfold a'; by_cases; lra).
  assert (Hc' : - PI <= c' < PI) by (unfold c'; by_cases; lra).
  assert (Sa : (if a' <? 0 then a' + PI else a' - PI) = a).
  { unfold a'; destruct (Rltb_spec a 0); by_cases; lra. }
  assert (Sc : (if c' <? 0 then c' + PI else c' - PI) = c).
  { unfold c'; destruct (Rltb_spec c 0); by_cases; lra. }
  unfold Zyx.getUnique.
  destruct (Rlt_le_dec 0 b) as [Hb | Hb].
  - rewrite prewrap_make by lra.
    rewrite bands_above by (cbn [Eigen.coeff1]; lra).
    cbn [Eigen.coeff0 Eigen.coeff1 Eigen.coeff2].
    rewrite Sa, Sc; do 2 f_equal; lra.
  - assert (W : Zyx.prewrap (Zyx.make a' (PI - b) c')
                = Eigen.mkVector3 a' (- PI - b) c').
    { unfold Zyx.prewrap, Zyx.make, Zyx.z, Zyx.y, Zyx.x;
        cbn [zyx_ Eigen.coeff0 Eigen.coeff1 Eigen.coeff2].
      rewrite (wrap_id a') by (unfold M_PI; lra).
      rewrite (wrap_id c') by (unfold M_PI; lra).
      rewrite (wrap_down (PI - b)) by (unfold M_PI; lra).
      unfold M_PI; f_equal; lra. }
    rewrite W.
    rewrite bands_below by (cbn [Eigen.coeff1]; lra).
    cbn [Eigen.coeff0 Eigen.coeff1 Eigen.coeff2].
    rewrite Sa, Sc; do 2 f_equal; lra.
Qed.

Lemma getUnique_mirror_witness :
  Zyx.getUnique
    (Zyx.make (if 1 <? 0 then 1 + PI else 1 - PI)
              (PI - 1 / 2)
              (if -2 <? 0 then -2 + PI else -2 - PI))
  = Zyx.make 1 (1 / 2) (-2).
Proof.
  pose proof M_PI_bounds as HPI; unfold M_PI in HPI.
  apply (getUnique_mirror (Zyx.make 1 (1 / 2) (-2)));
    unfold Zyx.make, Zyx.yaw, Zyx.pitch, Zyx.roll; simpl; lra.
Defined.

(** ** What the singular branches keep *)

(** X7. In the lower singular band the pitch and the sum yaw + roll of the
    wrapped angles are kept. *)
Theorem getUnique_lower_singular_sum (t : EulerAnglesZyx) :
  - PI / 2 - 1 / 1000 <= Eigen.coeff1 (Zyx.prewrap t) <= - PI / 2 + 1 / 1000 ->
  Zyx.pitch (Zyx.getUnique t) = Eigen.coeff1 (Zyx.prewrap t) /\
  Zyx.yaw (Zyx.getUnique t) + Zyx.roll (Zyx.getUnique t)
  = Eigen.coeff0 (Zyx.prewrap t) + Eigen.coeff2 (Zyx.prewrap t).
Proof.
  intros H; rewrite (getUnique_lower_singular t H).
  unfold Zyx.make, Zyx.yaw, Zyx.pitch, Zyx.roll;
    cbn [zyx_ Eigen.coeff0 Eigen.coeff1 Eigen.coeff2].
  split; [reflexivity | lra].
Qed.

Lemma getUnique_lower_singular_sum_witness :
  Zyx.yaw (Zyx.getUnique (Zyx.make 1 (- PI / 2) 2))
  + Zyx.roll (Zyx.getUnique (Zyx.make 1 (- PI / 2) 2)) = 1 + 2.
Proof.
  pose proof M_PI_bounds as HPI; unfold M_PI in HPI.
  assert (W : Zyx.prewrap (Zyx.make 1 (- PI / 2) 2) = Eigen.mkVector3 1 (- PI / 2) 2)
    by (apply prewrap_make; lra).
  assert (H : - PI / 2 - 1 / 1000 <= Eigen.coeff1 (Zyx.prewrap (Zyx.make 1 (- PI / 2) 2))
              <= - PI / 2 + 1 / 1000)
    by (rewrite W; simpl; lra).
  destruct (getUnique_lower_singular_sum _ H) as [_ Hs].
  rewrite Hs, W; reflexivity.
Defined.

(** X8. In the upper singular band the pitch and the difference yaw - roll of
    the wrapped angles are kept. *)
Theorem getUnique_upper_singular_difference (t : EulerAnglesZyx) :
  PI / 2 - 1 / 1000 <= Eigen.coeff1 (Zyx.prewrap t) <= PI / 2 + 1 / 1000 ->
  Zyx.pitch (Zyx.getUnique t) = Eigen.coeff1 (Zyx.prewrap t) /\
  Zyx.yaw (Zyx.getUnique t) - Zyx.roll (Zyx.getUnique t)
  = Eigen.coeff0 (Zyx.prewrap t) - Eigen.coeff2 (Zyx.prewrap t).
Proof.
  intros H; rewrite (getUnique_upper_singular t H).
  unfold Zyx.make, Zyx.yaw, Zyx.pitch, Zyx.roll;
    cbn [zyx_ Eigen.coeff0 Eigen.coeff1 Eigen.coeff2].
  split; [reflexivity | lra].
Qed.

Lemma getUnique_upper_singular_difference_witness :
  Zyx.yaw (Zyx.getUnique (Zyx.make 1 (PI / 2) 2))
  - Zyx.roll (Zyx.getUnique (Zyx.make 1 (PI / 2) 2)) = 1 - 2.
Proof.
  pose proof M_PI_bounds as HPI; unfold M_PI in HPI.
  assert (W : Zyx.prewrap (Zyx.make 1 (PI / 2) 2) = Eigen.mkVector3 1 (PI / 2) 2)
    by (apply prewrap_make; lra).
  assert (H : PI / 2 - 1 / 1000 <= Eigen.coeff1 (Zyx.prewrap (Zyx.make 1 (PI / 2) 2))
              <= PI / 2 + 1 / 1000)
    by (rewrite W; simpl; lra).
  destruct (getUnique_upper_singular_difference _ H) as [_ Hs].
  rewrite Hs, W; reflexivity.
Defined.

(** * Setters *)

(** X9. Each setter overwrites its own angle and nothing else; the two names of
    a setter are the same operation; writing the three angles of a triple
    into any receiver turns the receiver into that triple. *)
Theorem setters_overwrite_one_angle (r : EulerAnglesZyx) (a : R) :
  (Zyx.yaw (receiver (m_setYaw a) r) = a /\
   Zyx.pitch (receiver (m_setYaw a) r) = Zyx.pitch r /\
   Zyx.roll (receiver (m_setYaw a) r) = Zyx.roll r) /\
  (Zyx.yaw (receiver (m_setPitch a) r) = Zyx.yaw r /\
   Zyx.pitch (receiver (m_setPitch a) r) = a /\
   Zyx.roll (receiver (m_setPitch a) r) = Zyx.roll r) /\
  (Zyx.yaw (receiver (m_setRoll a) r) = Zyx.yaw r /\
   Zyx.pitch (receiver (m_setRoll a) r) = Zyx.pitch r /\
   Zyx.roll (receiver (m_setRoll a) r) = a) /\
  (receiver (m_setZ a) r = receiver (m_setYaw a) r /\
   receiver (m_setY a) r = receiver (m_setPitch a) r /\
   receiver (m_setX a) r = receiver (m_setRoll a) r) /\
  (forall s : EulerAnglesZyx,
      receiver (bind (m_setZ (Zyx.z s))
                     (fun _ => bind (m_setY (Zyx.y s)) (fun _ => m_setX (Zyx.x s)))) r
      = s) /\
  receiver (bind (m_setZ 0) (fun _ => bind (m_setY 0) (fun _ => m_setX 0))) r
  = receiver m_setIdentity r.
Proof.
  destruct r as [[r0 r1 r2]].
  repeat split.
  intros [[s0 s1 s2]]; reflexivity.
Qed.

(** * Conversion from a rotation matrix: range and round trip *)

(** ** atan2 *)

Lemma atan2_range (b a : R) : - PI < cmath.atan2 b a <= PI.
Proof.
  pi_bounds.
  pose proof (atan_bound (b / a)) as Hb.
  unfold cmath.atan2.
  destruct (Rltb_spec 0 a); [lra|].
  destruct (Rltb_spec a 0) as [Ha|Ha].
  - destruct (Rleb_spec 0 b) as [Hb0|Hb0].
    + assert (Hq : b / a <= 0).
      { unfold Rdiv. assert (/ a < 0) by (apply Rinv_lt_0_compat; exact Ha). nra. }
      assert (atan (b / a) <= 0).
      { destruct Hq as [Hq|Hq].
        - left; rewrite <- atan_0; apply atan_increasing; exact Hq.
        - rewrite Hq, atan_0; lra. }
      lra.
    + assert (Hq : 0 < b / a).
      { unfold Rdiv. assert (/ a < 0) by (apply Rinv_lt_0_compat; exact Ha). nra. }
      assert (0 < atan (b / a))
        by (rewrite <- atan_0; apply atan_increasing; exact Hq).
      lra.
  - by_cases; lra.
Qed.

(** atan2 returns the angle of a point given in polar coordinates. *)
Lemma atan2_polar (r a : R) :
  0 < r -> - PI < a <= PI ->
  cmath.atan2 (r * sin a) (r * cos a) = a.
Proof.
  intros Hr Ha; pi_bounds.
  destruct (Rtotal_order a (- (PI / 2))) as [Hlo | [Hlo | Hlo]].
  - (* third quadrant *)
    assert (Hc : 0 < cos (a + PI)) by (apply cos_gt_0; lra).
    assert (Hs : sin a < 0) by (apply sin_lt_0_var; lra).
    rewrite neg_cos in Hc.
    unfold cmath.atan2.
    destruct (Rltb_spec 0 (r * cos a)); [nra|].
    destruct (Rltb_spec (r * cos a) 0); [|nra].
    destruct (Rleb_spec 0 (r * sin a)); [nra|].
    replace (r * sin a / (r * cos a)) with (tan (a + PI)).
    + rewrite atan_tan by lra; lra.
    + unfold tan; rewrite neg_sin, neg_cos; field; lra.
  - subst a.
    rewrite sin_neg, cos_neg, sin_PI2, cos_PI2.
    unfold cmath.atan2; by_cases; lra.
  - destruct (Rtotal_order a (PI / 2)) as [Hhi | [Hhi | Hhi]].
    + (* right half plane *)
      assert (Hc : 0 < cos a) by (apply cos_gt_0; lra).
      unfold cmath.atan2.
      destruct (Rltb_spec 0 (r * cos a)); [|nra].
      replace (r * sin a / (r * cos a)) with (tan a)
        by (unfold tan; field; lra).
      apply atan_tan; lra.
    + subst a.
      rewrite sin_PI2, cos_PI2.
      unfold cmath.atan2; by_cases; lra.
    + (* second quadrant *)
      assert (Hc : cos a < 0) by (apply cos_lt_0; lra).
      assert (Hs : 0 <= sin a) by (apply sin_ge_0; lra).
      assert (Hc' : 0 < cos (a - PI)).
      { apply cos_gt_0; lra. }
      assert (Ec : cos (a - PI) = - cos a).
      { replace (cos a) with (cos (a - PI + PI)) by (f_equal; ring).
        rewrite neg_cos; ring. }
      assert (Es : sin (a - PI) = - sin a).
      { replace (sin a) with (sin (a - PI + PI)) by (f_equal; ring).
        rewrite neg_sin; ring. }
      unfold cmath.atan2.
      destruct (Rltb_spec 0 (r * cos a)); [nra|].
      destruct (Rltb_spec (r * cos a) 0); [|nra].
      destruct (Rleb_spec 0 (r * sin a)); [|nra].
      replace (r * sin a / (r * cos a)) with (tan (a - PI)).
      * rewrite atan_tan by lra; lra.
      * unfold tan; rewrite Es, Ec; field; lra.
Qed.

(** ** Orthonormal matrices *)

Lemma transpose_mul (a b : Eigen.Matrix3) :
  Eigen.transpose (Eigen.mul a b) = Eigen.mul (Eigen.transpose b) (Eigen.transpose a).
Proof. destruct a, b; unfold Eigen.transpose, Eigen.mul; cbn; f_equal; ring. Qed.

Lemma mul_assoc (a b c : Eigen.Matrix3) :
  Eigen.mul (Eigen.mul a b) c = Eigen.mul a (Eigen.mul b c).
Proof. destruct a, b, c; unfold Eigen.mul; cbn; f_equal; ring. Qed.

Lemma mul_Identity_l (a : Eigen.Matrix3) : Eigen.mul Eigen.Identity a = a.
Proof. destruct a; unfold Eigen.mul, Eigen.Identity; cbn; f_equal; ring. Qed.

Lemma orthonormal_mul (a b : Eigen.Matrix3) :
  Mat.orthonormal a -> Mat.orthonormal b -> Mat.orthonormal (Eigen.mul a b).
Proof.
  unfold Mat.orthonormal; intros Ha Hb.
  rewrite transpose_mul, mul_assoc, <- (mul_assoc (Eigen.transpose a)), Ha.
  rewrite mul_Identity_l; exact Hb.
Qed.

Lemma sin_cos_square (a : R) : sin a * sin a + cos a * cos a = 1.
Proof. pose proof (sin2_cos2 a) as H; unfold Rsqr in H; exact H. Qed.

Lemma orthonormal_Rz (a : R) : Mat.orthonormal (Rot.Rz a).
Proof.
  pose proof (sin_cos_square a).
  unfold Mat.orthonormal, Rot.Rz, Eigen.transpose, Eigen.mul, Eigen.Identity; cbn.
  f_equal; lra.
Qed.

Lemma orthonormal_Ry (a : R) : Mat.orthonormal (Rot.Ry a).
Proof.
  pose proof (sin_cos_square a).
  unfold Mat.orthonormal, Rot.Ry, Eigen.transpose, Eigen.mul, Eigen.Identity; cbn.
  f_equal; lra.
Qed.

Lemma orthonormal_Rx (a : R) : Mat.orthonormal (Rot.Rx a).
Proof.
  pose proof (sin_cos_square a).
  unfold Mat.orthonormal, Rot.Rx, Eigen.transpose, Eigen.mul, Eigen.Identity; cbn.
  f_equal; lra.
Qed.

Lemma orthonormal_zyx (z y x : R) : Mat.orthonormal (Rot.zyx z y x).
Proof.
  unfold Rot.zyx; repeat apply orthonormal_mul;
    [apply orthonormal_Rz | apply orthonormal_Ry | apply orthonormal_Rx].
Qed.

Lemma orthonormal_Identity : Mat.orthonormal Eigen.Identity.
Proof.
  unfold Mat.orthonormal, Eigen.transpose, Eigen.mul, Eigen.Identity; cbn.
  f_equal; lra.
Qed.

(** ** Range of the converter *)

(** X10. On a matrix with orthonormal columns the converter returns a triple,
    with its yaw and roll in (-PI, PI] and its pitch in [-PI/2, PI/2]. *)
Theorem convert_RotationMatrix_range (R : RotationMatrix) :
  Mat.orthonormal (Mat.toImplementation R) ->
  exists e : EulerAnglesZyx,
    convert_RotationMatrix R = Some e /\
    - PI < Zyx.yaw e <= PI /\
    - PI / 2 <= Zyx.pitch e <= PI / 2 /\
    - PI < Zyx.roll e <= PI.
Proof.
  intros H.
  pose proof (orthonormal_m20_bound _ H) as Hd; unfold Mat.toImplementation in Hd.
  eexists; split; [apply convert_RotationMatrix_defined; exact Hd|].
  unfold Zyx.make, Zyx.yaw, Zyx.pitch, Zyx.roll;
    cbn [zyx_ Eigen.coeff0 Eigen.coeff1 Eigen.coeff2].
  pose proof (asin_bound (Eigen.m20 (matrix_ R))) as Hb.
  split; [apply atan2_range|]. split; [lra | apply atan2_range].
Qed.

Lemma convert_RotationMatrix_range_witness :
  exists e : EulerAnglesZyx,
    convert_RotationMatrix (mkRotationMatrix Eigen.Identity) = Some e /\
    - PI < Zyx.yaw e <= PI /\
    - PI / 2 <= Zyx.pitch e <= PI / 2 /\
    - PI < Zyx.roll e <= PI.
Proof.
  apply (convert_RotationMatrix_range (mkRotationMatrix Eigen.Identity)).
  unfold Mat.orthonormal, Mat.toImplementation, Eigen.transpose, Eigen.mul, Eigen.Identity;
    cbn; f_equal; lra.
Defined.

(** ** Round trip *)

(** The coefficients of the Z-Y-X product that the converter reads. *)
Lemma zyx_coefficients (z y x : R) :
  let m := Rot.zyx z y x in
  Eigen.m00 m = cos y * cos z /\
  Eigen.m10 m = cos y * sin z /\
  Eigen.m20 m = - sin y /\
  Eigen.m21 m = cos y * sin x /\
  Eigen.m22 m = cos y * cos x.
Proof.
  cbv zeta; unfold Rot.zyx, Rot.Rz, Rot.Ry, Rot.Rx, Eigen.mul; cbn.
  repeat split; ring.
Qed.

Lemma convert_zyx_angles (z y x : R) :
  - PI < z <= PI ->
  - PI / 2 < y < PI / 2 ->
  - PI < x <= PI ->
  convert_RotationMatrix (mkRotationMatrix (Rot.zyx z y x))
  = Some (Zyx.make z y x).
Proof.
  intros Hz Hy Hx.
  destruct (zyx_coefficients z y x) as (E00 & E10 & E20 & E21 & E22).
  assert (Hc : 0 < cos y) by (apply cos_gt_0; lra).
  rewrite convert_RotationMatrix_defined;
    cbn [matrix_]; rewrite ?E00, ?E10, ?E20, ?E21, ?E22.
  - rewrite !atan2_polar by assumption.
    rewrite asin_opp, Ropp_involutive, asin_sin by lra.
    reflexivity.
  - pose proof (SIN_bound y); lra.
Qed.

(** X11. The converter recovers the angles of a Z-Y-X product, for a yaw and a
    roll in (-PI, PI] and a pitch strictly between -PI/2 and PI/2; the
    product is a matrix with orthonormal columns. *)
Theorem convert_RotationMatrix_zyx (z y x : R) :
  - PI < z <= PI ->
  - PI / 2 < y < PI / 2 ->
  - PI < x <= PI ->
  Mat.orthonormal (Rot.zyx z y x) /\
  convert_RotationMatrix (mkRotationMatrix (Rot.zyx z y x))
  = Some (Zyx.make z y x).
Proof.
  intros Hz Hy Hx.
  split; [apply orthonormal_zyx | apply convert_zyx_angles; assumption].
Qed.

Lemma convert_RotationMatrix_zyx_witness :
  convert_RotationMatrix (mkRotationMatrix (Rot.zyx 1 (1 / 2) (-2)))
  = Some (Zyx.make 1 (1 / 2) (-2)).
Proof.
  pose proof M_PI_bounds as HPI; unfold M_PI in HPI.
  apply (convert_RotationMatrix_zyx 1 (1 / 2) (-2)); lra.
Defined.

(** ** Matrix, converter, getUnique *)

(** An angle of [-PI, PI) has a representative in (-PI, PI] with the same
    sine and cosine, which the wrap of getUnique sends back to it. *)
Lemma half_open_representative (a : R) :
  - PI <= a < PI ->
  exists a' : R,
    - PI < a' <= PI /\ sin a' = sin a /\ cos a' = cos a /\
    common.floatingPointModulo (a' + M_PI) (2 * M_PI) - M_PI = a.
Proof.
  intros Ha; pi_bounds.
  destruct (Req_dec a (- PI)) as [E | E].
  - exists PI; subst a.
    rewrite sin_neg, cos_neg, sin_PI.
    repeat split; try lra.
    rewrite wrap_down by (unfold M_PI; lra).
    unfold M_PI; lra.
  - exists a.
    repeat split; try lra.
    apply wrap_id; unfold M_PI; lra.
Qed.

Lemma getUnique_convert_angles (a b c : R) :
  - PI <= a < PI ->
  - PI <= c < PI ->
  - PI / 2 + 1 / 1000 < b < PI / 2 - 1 / 1000 ->
  option_map Zyx.getUnique
             (convert_RotationMatrix (mkRotationMatrix (Rot.zyx a b c)))
  = Some (Zyx.make a b c).
Proof.
  intros Hz Hx Hy; pi_bounds.
  destruct (half_open_representative a Hz) as (a' & Ha' & Sa & Ca & Wa).
  destruct (half_open_representative c Hx) as (c' & Hc' & Sc & Cc & Wc).
  assert (M : Rot.zyx a b c = Rot.zyx a' b c').
  { unfold Rot.zyx, Rot.Rz, Rot.Rx; rewrite Sa, Ca, Sc, Cc; reflexivity. }
  rewrite M, convert_zyx_angles by lra.
  cbn [option_map]; f_equal.
  unfold Zyx.getUnique.
  assert (W : Zyx.prewrap (Zyx.make a' b c') = Eigen.mkVector3 a b c).
  { unfold Zyx.prewrap, Zyx.make, Zyx.z, Zyx.y, Zyx.x;
      cbn [zyx_ Eigen.coeff0 Eigen.coeff1 Eigen.coeff2].
    rewrite Wa, Wc, (wrap_id b) by (unfold M_PI; lra).
    reflexivity. }
  rewrite W, bands_middle by (cbn [Eigen.coeff1]; exact Hy).
  reflexivity.
Qed.

(** * setUnique *)

(** X13. setUnique returns the value it leaves in the receiver; two calls in a
    row bring the receiver to a value that further calls do not change. *)
Theorem setUnique_settles (r : EulerAnglesZyx) :
  returned m_setUnique r = receiver m_setUnique r /\
  receiver (bind m_setUnique (fun _ => m_setUnique)) r
  = Zyx.getUnique (Zyx.getUnique r) /\
  receiver (bind m_setUnique
                 (fun _ => bind m_setUnique (fun _ => m_setUnique))) r
  = receiver (bind m_setUnique (fun _ => m_setUnique)) r.
Proof.
  assert (E2 : receiver (bind m_setUnique (fun _ => m_setUnique)) r
               = Zyx.getUnique (Zyx.getUnique r)) by reflexivity.
  assert (E3 : receiver (bind m_setUnique
                              (fun _ => bind m_setUnique (fun _ => m_setUnique))) r
               = Zyx.getUnique (Zyx.getUnique (Zyx.getUnique r))) by reflexivity.
  split; [reflexivity|]. split; [exact E2|].
  rewrite E3, E2.
  apply getUnique_idempotent_in_range, getUnique_twice_roll_range.
Qed.

(** * getUnique and the rotation a triple denotes *)

(** ** Sine and cosine under the steps of getUnique *)

Lemma sin_cos_period_Z (a : R) (k : Z) :
  sin (a + 2 * PI * IZR k) = sin a /\ cos (a + 2 * PI * IZR k) = cos a.
Proof.
  assert (P : forall (b : R) (n : nat),
             sin (b + 2 * PI * INR n) = sin b /\ cos (b + 2 * PI * INR n) = cos b).
  { intros b n.
    replace (b + 2 * PI * INR n) with (b + 2 * INR n * PI) by ring.
    split; [apply sin_period | apply cos_period]. }
  destruct (Z_le_gt_dec 0 k) as [Hk | Hk].
  - rewrite <- (Z2Nat.id k Hk), <- INR_IZR_INZ. apply P.
  - assert (E : IZR k = - INR (Z.to_nat (- k))).
    { rewrite INR_IZR_INZ, Z2Nat.id, opp_IZR by lia; ring. }
    rewrite E.
    destruct (P (a + 2 * PI * - INR (Z.to_nat (- k))) (Z.to_nat (- k))) as [Ps Pc].
    rewrite <- Ps, <- Pc; split; f_equal; ring.
Qed.

Lemma wrap_sin_cos (a : R) :
  sin (common.floatingPointModulo (a + M_PI) (2 * M_PI) - M_PI) = sin a /\
  cos (common.floatingPointModulo (a + M_PI) (2 * M_PI) - M_PI) = cos a.
Proof.
  unfold common.floatingPointModulo, M_PI.
  set (q := Int_part ((a + PI) / (2 * PI))).
  replace (a + PI - 2 * PI * IZR q - PI) with (a + 2 * PI * IZR (- q))
    by (rewrite opp_IZR; ring).
  apply sin_cos_period_Z.
Qed.

Lemma shift_sin_cos (a : R) :
  sin (if a <? 0 then a + PI else a - PI) = - sin a /\
  cos (if a <? 0 then a + PI else a - PI) = - cos a.
Proof.
  destruct (Rltb_spec a 0).
  - split; [apply neg_sin | apply neg_cos].
  - split.
    + replace (sin a) with (sin (a - PI + PI)) by (f_equal; ring).
      rewrite neg_sin; ring.
    + replace (cos a) with (cos (a - PI + PI)) by (f_equal; ring).
      rewrite neg_cos; ring.
Qed.

(** ** The Z-Y-X product as a function of sines and cosines *)

Lemma zyx_by_sin_cos (z y x z' y' x' : R) :
  sin z' = sin z -> cos z' = cos z ->
  sin y' = sin y -> cos y' = cos y ->
  sin x' = sin x -> cos x' = cos x ->
  Rot.zyx z' y' x' = Rot.zyx z y x.
Proof.
  intros Sz Cz Sy Cy Sx Cx.
  unfold Rot.zyx, Rot.Rz, Rot.Ry, Rot.Rx.
  rewrite Sz, Cz, Sy, Cy, Sx, Cx; reflexivity.
Qed.

Lemma zyx_flip (z y x z' y' x' : R) :
  sin z' = - sin z -> cos z' = - cos z ->
  sin y' = sin y -> cos y' = - cos y ->
  sin x' = - sin x -> cos x' = - cos x ->
  Rot.zyx z' y' x' = Rot.zyx z y x.
Proof.
  intros Sz Cz Sy Cy Sx Cx.
  unfold Rot.zyx, Rot.Rz, Rot.Ry, Rot.Rx, Eigen.mul; cbn.
  rewrite Sz, Cz, Sy, Cy, Sx, Cx; f_equal; ring.
Qed.

Lemma zyx_gimbal_lower (z y x : R) :
  sin y = -1 -> cos y = 0 ->
  Rot.zyx 0 y (x + z) = Rot.zyx z y x.
Proof.
  intros Sy Cy.
  unfold Rot.zyx, Rot.Rz, Rot.Ry, Rot.Rx, Eigen.mul; cbn.
  rewrite sin_plus, cos_plus, sin_0, cos_0, Sy, Cy; f_equal; ring.
Qed.

Lemma zyx_gimbal_upper (z y x : R) :
  sin y = 1 -> cos y = 0 ->
  Rot.zyx 0 y (x - z) = Rot.zyx z y x.
Proof.
  intros Sy Cy.
  unfold Rot.zyx, Rot.Rz, Rot.Ry, Rot.Rx, Eigen.mul; cbn.
  rewrite sin_minus, cos_minus, sin_0, cos_0, Sy, Cy; f_equal; ring.
Qed.

(** The wrapped angles denote the rotation of the input. *)
Lemma prewrap_keeps_rotation (t : EulerAnglesZyx) :
  let w := Zyx.prewrap t in
  Rot.zyx (Eigen.coeff0 w) (Eigen.coeff1 w) (Eigen.coeff2 w)
  = Rot.zyx (Zyx.yaw t) (Zyx.pitch t) (Zyx.roll t).
Proof.
  cbv zeta; unfold Zyx.prewrap; cbn [Eigen.coeff0 Eigen.coeff1 Eigen.coeff2].
  apply zyx_by_sin_cos; apply wrap_sin_cos.
Qed.

(** The branch chain keeps the rotation, outside the singular bands and at
    the exact singular pitches. *)
Lemma bands_keep_rotation (w : Eigen.Vector3) :
  (Eigen.coeff1 w < - PI / 2 - 1 / 1000 \/
   - PI / 2 + 1 / 1000 < Eigen.coeff1 w < PI / 2 - 1 / 1000 \/
   PI / 2 + 1 / 1000 < Eigen.coeff1 w) \/
  Eigen.coeff1 w = - (PI / 2) \/
  Eigen.coeff1 w = PI / 2 ->
  Rot.zyx (Eigen.coeff0 (Zyx.bands w)) (Eigen.coeff1 (Zyx.bands w))
          (Eigen.coeff2 (Zyx.bands w))
  = Rot.zyx (Eigen.coeff0 w) (Eigen.coeff1 w) (Eigen.coeff2 w).
Proof.
  intros H; pi_bounds.
  destruct H as [[H | [H | H]] | [H | H]].
  - rewrite bands_below by exact H; cbn [Eigen.coeff0 Eigen.coeff1 Eigen.coeff2].
    apply zyx_flip; try apply shift_sin_cos.
    + rewrite sin_neg, neg_sin; ring.
    + rewrite cos_neg, neg_cos; ring.
  - rewrite bands_middle by exact H; reflexivity.
  - rewrite bands_above by exact H; cbn [Eigen.coeff0 Eigen.coeff1 Eigen.coeff2].
    apply zyx_flip; try apply shift_sin_cos.
    + rewrite sin_neg.
      replace (sin (Eigen.coeff1 w)) with (sin (Eigen.coeff1 w - PI + PI))
        by (f_equal; ring).
      rewrite neg_sin; ring.
    + rewrite cos_neg.
      replace (cos (Eigen.coeff1 w)) with (cos (Eigen.coeff1 w - PI + PI))
        by (f_equal; ring).
      rewrite neg_cos; ring.
  - rewrite bands_lower_singular by lra;
      cbn [Eigen.coeff0 Eigen.coeff1 Eigen.coeff2].
    apply zyx_gimbal_lower; rewrite H.
    + rewrite sin_neg, sin_PI2; reflexivity.
    + rewrite cos_neg, cos_PI2; reflexivity.
  - rewrite bands_upper_singular by lra;
      cbn [Eigen.coeff0 Eigen.coeff1 Eigen.coeff2].
    apply zyx_gimbal_upper; rewrite H.
    + apply sin_PI2.
    + apply cos_PI2.
Qed.

(** X14. getUnique returns a triple that denotes the same rotation matrix as
    its input, whenever the wrapped pitch is outside the two singular bands
    or is exactly -PI/2 or PI/2. *)
Theorem getUnique_keeps_rotation (t : EulerAnglesZyx) :
  (Eigen.coeff1 (Zyx.prewrap t) < - PI / 2 - 1 / 1000 \/
   - PI / 2 + 1 / 1000 < Eigen.coeff1 (Zyx.prewrap t) < PI / 2 - 1 / 1000 \/
   PI / 2 + 1 / 1000 < Eigen.coeff1 (Zyx.prewrap t)) \/
  Eigen.coeff1 (Zyx.prewrap t) = - (PI / 2) \/
  Eigen.coeff1 (Zyx.prewrap t) = PI / 2 ->
  Rot.zyx (Zyx.yaw (Zyx.getUnique t)) (Zyx.pitch (Zyx.getUnique t))
          (Zyx.roll (Zyx.getUnique t))
  = Rot.zyx (Zyx.yaw t) (Zyx.pitch t) (Zyx.roll t).
Proof.
  intros H.
  rewrite <- (prewrap_keeps_rotation t).
  exact (bands_keep_rotation (Zyx.prewrap t) H).
Qed.

Lemma getUnique_keeps_rotation_witness :
  Rot.zyx (Zyx.yaw (Zyx.getUnique (Zyx.make 1 (- (PI / 2)) 2)))
          (Zyx.pitch (Zyx.getUnique (Zyx.make 1 (- (PI / 2)) 2)))
          (Zyx.roll (Zyx.getUnique (Zyx.make 1 (- (PI / 2)) 2)))
  = Rot.zyx 1 (- (PI / 2)) 2.
Proof.
  pose proof M_PI_bounds as HPI; unfold M_PI in HPI.
  apply (getUnique_keeps_rotation (Zyx.make 1 (- (PI / 2)) 2)).
  right; left.
  rewrite prewrap_make by lra; reflexivity.
Defined.

(** X15. Inside a singular band but off the exact singularity the result
    denotes a different rotation matrix, unless the sine of the yaw is 0:
    the tolerance of 1e-3 trades the rotation for the canonical form. *)
Theorem getUnique_tolerance_changes_rotation (t : EulerAnglesZyx) :
  - PI / 2 - 1 / 1000 <= Eigen.coeff1 (Zyx.prewrap t) <= - PI / 2 + 1 / 1000 \/
  PI / 2 - 1 / 1000 <= Eigen.coeff1 (Zyx.prewrap t) <= PI / 2 + 1 / 1000 ->
  cos (Zyx.pitch t) <> 0 ->
  sin (Zyx.yaw t) <> 0 ->
  Rot.zyx (Zyx.yaw (Zyx.getUnique t)) (Zyx.pitch (Zyx.getUnique t))
          (Zyx.roll (Zyx.getUnique t))
  <> Rot.zyx (Zyx.yaw t) (Zyx.pitch t) (Zyx.roll t).
Proof.
  intros H Hc Hs E.
  apply (f_equal Eigen.m10) in E.
  destruct (zyx_coefficients (Zyx.yaw (Zyx.getUnique t)) (Zyx.pitch (Zyx.getUnique t))
                             (Zyx.roll (Zyx.getUnique t))) as (_ & E1 & _).
  destruct (zyx_coefficients (Zyx.yaw t) (Zyx.pitch t) (Zyx.roll t)) as (_ & E2 & _).
  rewrite E1, E2 in E.
  assert (Y : Zyx.yaw (Zyx.getUnique t) = 0).
  { destruct H as [H | H].
    - rewrite (getUnique_lower_singular t H); reflexivity.
    - rewrite (getUnique_upper_singular t H); reflexivity. }
  rewrite Y, sin_0 in E.
  assert (0 <> cos (Zyx.pitch t) * sin (Zyx.yaw t)) by nra.
  lra.
Qed.

Lemma getUnique_tolerance_changes_rotation_witness :
  Rot.zyx (Zyx.yaw (Zyx.getUnique (Zyx.make 1 (- PI / 2 + 1 / 2000) 0)))
          (Zyx.pitch (Zyx.getUnique (Zyx.make 1 (- PI / 2 + 1 / 2000) 0)))
          (Zyx.roll (Zyx.getUnique (Zyx.make 1 (- PI / 2 + 1 / 2000) 0)))
  <> Rot.zyx 1 (- PI / 2 + 1 / 2000) 0.
Proof.
  pose proof M_PI_bounds as HPI; unfold M_PI in HPI.
  apply (getUnique_tolerance_changes_rotation (Zyx.make 1 (- PI / 2 + 1 / 2000) 0)).
  - left; rewrite prewrap_make by lra; simpl; lra.
  - apply Rgt_not_eq, cos_gt_0; unfold Zyx.pitch, Zyx.make; simpl; lra.
  - apply Rgt_not_eq, sin_gt_0; unfold Zyx.yaw, Zyx.make; simpl; lra.
Defined.

(** ** getUnique decides equality of regular rotations *)

(** X16. For two triples whose wrapped pitch is outside the singular bands,
    the results of getUnique are equal exactly when the triples denote the
    same rotation matrix. *)
Theorem getUnique_decides_rotation (s t : EulerAnglesZyx) :
  Eigen.coeff1 (Zyx.prewrap s) < - PI / 2 - 1 / 1000 \/
  - PI / 2 + 1 / 1000 < Eigen.coeff1 (Zyx.prewrap s) < PI / 2 - 1 / 1000 \/
  PI / 2 + 1 / 1000 < Eigen.coeff1 (Zyx.prewrap s) ->
  Eigen.coeff1 (Zyx.prewrap t) < - PI / 2 - 1 / 1000 \/
  - PI / 2 + 1 / 1000 < Eigen.coeff1 (Zyx.prewrap t) < PI / 2 - 1 / 1000 \/
  PI / 2 + 1 / 1000 < Eigen.coeff1 (Zyx.prewrap t) ->
  (Zyx.getUnique s = Zyx.getUnique t <->
   Rot.zyx (Zyx.yaw s) (Zyx.pitch s) (Zyx.roll s)
   = Rot.zyx (Zyx.yaw t) (Zyx.pitch t) (Zyx.roll t)).
Proof.
  intros Hs Ht.
  assert (Ks : Rot.zyx (Zyx.yaw (Zyx.getUnique s)) (Zyx.pitch (Zyx.getUnique s))
                       (Zyx.roll (Zyx.getUnique s))
               = Rot.zyx (Zyx.yaw s) (Zyx.pitch s) (Zyx.roll s)).
  { rewrite <- (prewrap_keeps_rotation s).
    apply (bands_keep_rotation (Zyx.prewrap s)); left; exact Hs. }
  assert (Kt : Rot.zyx (Zyx.yaw (Zyx.getUnique t)) (Zyx.pitch (Zyx.getUnique t))
                       (Zyx.roll (Zyx.getUnique t))
               = Rot.zyx (Zyx.yaw t) (Zyx.pitch t) (Zyx.roll t)).
  { rewrite <- (prewrap_keeps_rotation t).
    apply (bands_keep_rotation (Zyx.prewrap t)); left; exact Ht. }
  split.
  - intros E; rewrite <- Ks, <- Kt, E; reflexivity.
  - intros E.
    assert (C : forall u : EulerAnglesZyx,
               Eigen.coeff1 (Zyx.prewrap u) < - PI / 2 - 1 / 1000 \/
               - PI / 2 + 1 / 1000 < Eigen.coeff1 (Zyx.prewrap u) < PI / 2 - 1 / 1000 \/
               PI / 2 + 1 / 1000 < Eigen.coeff1 (Zyx.prewrap u) ->
               option_map Zyx.getUnique
                 (convert_RotationMatrix
                    (mkRotationMatrix
                       (Rot.zyx (Zyx.yaw (Zyx.getUnique u)) (Zyx.pitch (Zyx.getUnique u))
                                (Zyx.roll (Zyx.getUnique u)))))
               = Some (Zyx.getUnique u)).
    { intros u Hu.
      destruct (getUnique_range_regular u Hu) as (Hz & _ & Hx).
      pose proof (getUnique_regular_pitch u Hu) as Hy.
      rewrite getUnique_convert_angles by assumption.
      destruct (Zyx.getUnique u) as [[a b c]]; reflexivity. }
    pose proof (C s Hs) as Cs; pose proof (C t Ht) as Ct.
    rewrite Ks, E in Cs; rewrite Kt in Ct.
    rewrite Cs in Ct.
    exact (f_equal (fun o => match o with Some e => e | None => Zyx.getUnique s end) Ct).
Qed.

Lemma getUnique_decides_rotation_witness :
  Zyx.getUnique (Zyx.make 1 (1 / 2) (-2))
  = Zyx.getUnique (Zyx.make (1 - PI) (PI - 1 / 2) (-2 + PI)) <->
  Rot.zyx 1 (1 / 2) (-2) = Rot.zyx (1 - PI) (PI - 1 / 2) (-2 + PI).
Proof.
  pose proof M_PI_bounds as HPI; unfold M_PI in HPI.
  apply (getUnique_decides_rotation (Zyx.make 1 (1 / 2) (-2))
                                    (Zyx.make (1 - PI) (PI - 1 / 2) (-2 + PI)));
    rewrite prewrap_make by lra; simpl; lra.
Defined.


(** * getUnique on doubles: the inputs discussed above *)

(** On doubles the singular branch behaves as on the reals: (3, -PI/2, 3)
    gives (0, -PI/2, 6), a second call wraps the 6, and (1, -PI/2, 2) gives
    (0, -PI/2, 3).  At the edge the rounding of the wrap shows: for
    (0, 2.5, -2^-51) the first result has the largest double below [M_PI] as
    its roll and a second call turns it into [-M_PI]. *)
Lemma double_getUnique_examples :
  let h := PrimFloat.div (PrimFloat.opp Double.M_PI) Double.two in
  Double.getUnique (Double.make 0x1.8p1%float h 0x1.8p1%float)
  = Double.make Double.zero h 0x1.8p2%float /\
  Double.getUnique (Double.getUnique (Double.make 0x1.8p1%float h 0x1.8p1%float))
  = Double.make Double.zero h
      (PrimFloat.sub 0x1.8p2%float (PrimFloat.mul Double.two Double.M_PI)) /\
  Double.getUnique (Double.make 0x1p0%float h 0x1p1%float)
  = Double.make Double.zero h 0x1.8p1%float /\
  Double.coeff2 (Double.zyx_
    (Double.getUnique
       (Double.make Double.zero 0x1.4p1%float (PrimFloat.opp 0x1p-51%float))))
  = 0x1.921fb54442d17p+1%float /\
  Double.coeff2 (Double.zyx_
    (Double.getUnique
       (Double.getUnique
          (Double.make Double.zero 0x1.4p1%float (PrimFloat.opp 0x1p-51%float)))))
  = PrimFloat.opp Double.M_PI.
Proof.
  cbv zeta; repeat split; vm_compute; reflexivity.
Qed.
